(** * LumoLights LED core: the pixel pipeline

    A shallow embedding of [210_LED_CORE.h] (namespace [LED::CORE]), of the
    scheduler and setters of [200_LED_LINKER.h], of the blob persistence and
    autosave of [400_SETTINGS.h], of the line buffer, the deferred restart
    and the EDGE_CENTER setters of [300_CONSOLE.h] and of the mirror bridge of
    [100_DEVICE_LINKER.h], with the properties of the pipeline stated against
    it.

    Conventions of the embedding.
    - The process-wide singletons [GetConfig()], [GetVars()] are passed
      explicitly: a function that reads the configuration takes a [Config.t],
      a function that mutates [Vars] returns the new [Vars.t].
    - [float] is modelled by exact rational arithmetic ([Q]).  Rounding of
      binary32, infinities and NaN are outside the model, and so is division
      by zero (which [Q] defines as [0]).  Equality of floats is [Qeq] ([==]).
    - [uint8_t], [uint32_t] and [int] are [Z] with the wrap-around written
      out; [size_t] indices and counts are [nat].
    - The fixed-capacity arrays [Pixels], [Colors], [Scale] and [Effect] are
      lists, read with [!!] / [!!!] and written with [<[i:=x]>].
    - Readings of [millis()], the outcome of [Preferences::putBytes] and the
      bytes the serial port delivers are parameters of the functions that
      take them; hardware output is not modelled. *)

From Stdlib Require Import ZArith QArith Qabs Qround Lia Lqa List Bool.
From stdpp Require Import base tactics option list.

Open Scope Q_scope.

(** ** Arithmetic of the C++ scalar types *)

Definition Qltb (x y : Q) : bool := negb (Qle_bool y x).

(** Arduino's [constrain(amt, low, high)] macro:
    [(amt) < (low) ? (low) : ((amt) > (high) ? (high) : (amt))]. *)
Definition constrain (amt low high : Q) : Q :=
  if Qltb amt low then low else if Qltb high amt then high else amt.

(** [fabsf]. *)
Definition fabsf (x : Q) : Q := Qabs x.

(** Conversion of a [float] to an integer type truncates toward zero.  Where
    the truncated value does not fit the target type the C++ conversion is
    undefined; the model wraps it around. *)
Definition float_to_Z (x : Q) : Z := Z.quot (Qnum x) (Zpos (Qden x)).

Definition to_uint8 (z : Z) : Z := (z mod 256)%Z.
Definition to_uint32 (z : Z) : Z := (z mod 2 ^ 32)%Z.
Definition to_int (z : Z) : Z := ((z + 2 ^ 31) mod 2 ^ 32 - 2 ^ 31)%Z.

(** [static_cast<uint8_t>(x)], [static_cast<int>(x)], [(uint32_t)(x)] and
    [(float)n]. *)
Definition float_to_uint8 (x : Q) : Z := to_uint8 (float_to_Z x).
Definition float_to_int (x : Q) : Z := to_int (float_to_Z x).
Definition float_to_uint32 (x : Q) : Z := to_uint32 (float_to_Z x).
Definition Z_to_float (z : Z) : Q := inject_Z z.
Definition size_to_float (n : nat) : Q := inject_Z (Z.of_nat n).

(** [for (size_t i = 0; i < n; ++i) body(i)] over a state. *)
Definition for_upto {S : Type} (n : nat) (body : nat -> S -> S) (s : S) : S :=
  fold_left (fun acc i => body i acc) (seq 0 n) s.

(** [for (size_t i = last; i > 0; --i) body(i)] over a state. *)
Definition for_downto_1 {S : Type} (last : nat) (body : nat -> S -> S) (s : S) : S :=
  fold_left (fun acc i => body i acc) (rev (seq 1 last)) s.

(** ** Types of [210_LED_CORE.h] *)

Inductive GradientMode : Type :=
| LINEAR
| LINEAR_PADDING
| SINGLE_COLOR
| MIDPOINT_SPLIT
| EDGE_CENTER.

Inductive InterpolationMode : Type :=
| Linear
| Smooth.

Module Pixel_byte.
Record t : Type := mk { R : Z; G : Z; B : Z; W : Z }.
End Pixel_byte.

Module Pixel_float.
Record t : Type := mk { R : Q; G : Q; B : Q; W : Q }.
End Pixel_float.

Module Effect_Container.
Record t : Type := mk {
  prev : Q;
  next : Q;
  currentOutput : Q;
  numSteps : Z;
  currentStep : Z;
  hold : bool
}.
End Effect_Container.

Module State.
Record t : Type := mk {
  active : bool;
  processingLastExecutionMs : Z;
  effectLastExecutionMs : Z
}.
End State.

Module Config.
Record t : Type := mk {
  colorOneStaging : Pixel_float.t;
  colorTwoStaging : Pixel_float.t;
  brightnessStaging : Q;
  onoffStaging : Q;
  colorIncrement : Q;
  brightnessIncrement : Q;
  onoffIncrement : Q;
  processingIntervalMs : Z;
  effectIntervalMs : Z;
  gradientPaddingBegin : Q;
  gradientPaddingValue : Q;
  gradientMiddleEdgeSize : Q;
  gradientMiddleCenterSize : Q;
  gradientInterpolationMode : InterpolationMode;
  gradientMode : GradientMode;
  gradientInvertColors : bool;
  effectMinAmplitude : Q;
  effectMaxAmplitude : Q;
  effectEvolveMinSteps : Q;
  effectEvolveMaxSteps : Q;
  effectHoldMinSteps : Q;
  effectHoldMaxSteps : Q;
  effectActive : bool;
  count : Z;
  changeCounter : Z;
  lastModifiedMs : Z
}.

Definition set_brightnessStaging (x : Q) (c : t) : t :=
  mk (colorOneStaging c) (colorTwoStaging c) x (onoffStaging c)
     (colorIncrement c) (brightnessIncrement c) (onoffIncrement c)
     (processingIntervalMs c) (effectIntervalMs c)
     (gradientPaddingBegin c) (gradientPaddingValue c)
     (gradientMiddleEdgeSize c) (gradientMiddleCenterSize c)
     (gradientInterpolationMode c) (gradientMode c) (gradientInvertColors c)
     (effectMinAmplitude c) (effectMaxAmplitude c)
     (effectEvolveMinSteps c) (effectEvolveMaxSteps c)
     (effectHoldMinSteps c) (effectHoldMaxSteps c) (effectActive c)
     (count c) (changeCounter c) (lastModifiedMs c).



Definition set_change (counter stamp : Z) (c : t) : t :=
  mk (colorOneStaging c) (colorTwoStaging c) (brightnessStaging c) (onoffStaging c)
     (colorIncrement c) (brightnessIncrement c) (onoffIncrement c)
     (processingIntervalMs c) (effectIntervalMs c)
     (gradientPaddingBegin c) (gradientPaddingValue c)
     (gradientMiddleEdgeSize c) (gradientMiddleCenterSize c)
     (gradientInterpolationMode c) (gradientMode c) (gradientInvertColors c)
     (effectMinAmplitude c) (effectMaxAmplitude c)
     (effectEvolveMinSteps c) (effectEvolveMaxSteps c)
     (effectHoldMinSteps c) (effectHoldMaxSteps c) (effectActive c)
     (count c) counter stamp.

Definition set_effectActive (x : bool) (c : t) : t :=
  mk (colorOneStaging c) (colorTwoStaging c) (brightnessStaging c) (onoffStaging c)
     (colorIncrement c) (brightnessIncrement c) (onoffIncrement c)
     (processingIntervalMs c) (effectIntervalMs c)
     (gradientPaddingBegin c) (gradientPaddingValue c)
     (gradientMiddleEdgeSize c) (gradientMiddleCenterSize c)
     (gradientInterpolationMode c) (gradientMode c) (gradientInvertColors c)
     (effectMinAmplitude c) (effectMaxAmplitude c)
     (effectEvolveMinSteps c) (effectEvolveMaxSteps c)
     (effectHoldMinSteps c) (effectHoldMaxSteps c) x
     (count c) (changeCounter c) (lastModifiedMs c).


(** The default member initialisers of [struct Config]; the staging fields
    have none and are given the values [Init] stores. *)
Definition default (LED_COUNT : nat) : t :=
  mk (Pixel_float.mk 255 0 0 0) (Pixel_float.mk 0 255 0 0) 255 1
     1 1 (1 # 100)
     10 10
     (1 # 10) (95 # 100)
     0 (5 # 100)
     Smooth LINEAR_PADDING false
     (6 # 10) (12 # 10)
     100 200
     10 30 true
     (to_uint8 (Z.of_nat LED_COUNT)) 0 0.
End Config.

Module Vars.
Record t : Type := mk {
  Pixels : list Pixel_byte.t;
  Colors : list Pixel_byte.t;
  Scale : list Pixel_float.t;
  colorOne : Pixel_float.t;
  colorTwo : Pixel_float.t;
  brightness : Q;
  onoffFactor : Q;
  Count : nat;
  Effect : list Effect_Container.t
}.

Definition set_Pixels (x : list Pixel_byte.t) (v : t) : t :=
  mk x (Colors v) (Scale v) (colorOne v) (colorTwo v)
     (brightness v) (onoffFactor v) (Count v) (Effect v).
Definition set_Colors (x : list Pixel_byte.t) (v : t) : t :=
  mk (Pixels v) x (Scale v) (colorOne v) (colorTwo v)
     (brightness v) (onoffFactor v) (Count v) (Effect v).
Definition set_Scale (x : list Pixel_float.t) (v : t) : t :=
  mk (Pixels v) (Colors v) x (colorOne v) (colorTwo v)
     (brightness v) (onoffFactor v) (Count v) (Effect v).
Definition set_colorOne (x : Pixel_float.t) (v : t) : t :=
  mk (Pixels v) (Colors v) (Scale v) x (colorTwo v)
     (brightness v) (onoffFactor v) (Count v) (Effect v).
Definition set_colorTwo (x : Pixel_float.t) (v : t) : t :=
  mk (Pixels v) (Colors v) (Scale v) (colorOne v) x
     (brightness v) (onoffFactor v) (Count v) (Effect v).
Definition set_brightness (x : Q) (v : t) : t :=
  mk (Pixels v) (Colors v) (Scale v) (colorOne v) (colorTwo v)
     x (onoffFactor v) (Count v) (Effect v).
Definition set_onoffFactor (x : Q) (v : t) : t :=
  mk (Pixels v) (Colors v) (Scale v) (colorOne v) (colorTwo v)
     (brightness v) x (Count v) (Effect v).
Definition set_Effect (x : list Effect_Container.t) (v : t) : t :=
  mk (Pixels v) (Colors v) (Scale v) (colorOne v) (colorTwo v)
     (brightness v) (onoffFactor v) (Count v) x.
End Vars.

#[global] Instance Pixel_byte_inhabited : Inhabited Pixel_byte.t :=
  populate (Pixel_byte.mk 0 0 0 0).
#[global] Instance Pixel_float_inhabited : Inhabited Pixel_float.t :=
  populate (Pixel_float.mk 1 1 1 1).
#[global] Instance Effect_Container_inhabited : Inhabited Effect_Container.t :=
  populate (Effect_Container.mk 1 1 1 0 1 false).

(** ** The Arduino runtime's random sources

    [rand()] and [random(lo, hi)] are not part of the repository.  They are
    modelled as reads from a tape of raw non-negative draws, so that every
    possible sequence of results is some tape. *)
Module Rng.
Record t : Type := mk { RAND_MAX : Z; tape : nat -> Z; pos : nat }.

Definition draw (g : t) : Z * t :=
  (Z.abs (tape g (pos g)), mk (RAND_MAX g) (tape g) (S (pos g))).

(** [rand()]: a value in [0, RAND_MAX]. *)
Definition rand (g : t) : Z * t :=
  let '(x, g') := draw g in ((x mod (RAND_MAX g + 1))%Z, g').

(** [random(howsmall, howbig)]: a value in [howsmall, howbig). *)
Definition random (howsmall howbig : Z) (g : t) : Z * t :=
  if (howbig <=? howsmall)%Z then (howsmall, g)
  else let '(x, g') := draw g in ((howsmall + x mod (howbig - howsmall))%Z, g').
End Rng.

(** ** Pointer-to-member selection of one channel of a [Pixel_float] *)

Inductive member : Type :=
| member_R
| member_G
| member_B
| member_W.

Definition member_get (m : member) (p : Pixel_float.t) : Q :=
  match m with
  | member_R => Pixel_float.R p
  | member_G => Pixel_float.G p
  | member_B => Pixel_float.B p
  | member_W => Pixel_float.W p
  end.

Definition member_set (m : member) (x : Q) (p : Pixel_float.t) : Pixel_float.t :=
  match m with
  | member_R => Pixel_float.mk x (Pixel_float.G p) (Pixel_float.B p) (Pixel_float.W p)
  | member_G => Pixel_float.mk (Pixel_float.R p) x (Pixel_float.B p) (Pixel_float.W p)
  | member_B => Pixel_float.mk (Pixel_float.R p) (Pixel_float.G p) x (Pixel_float.W p)
  | member_W => Pixel_float.mk (Pixel_float.R p) (Pixel_float.G p) (Pixel_float.B p) x
  end.

(** [scale[i].*channelPtr = x]. *)
Definition assign_member (m : member) (i : nat) (x : Q)
    (scale : list Pixel_float.t) : list Pixel_float.t :=
  <[i := member_set m x (scale !!! i)]> scale.

(** ** [SetPixelRGBW] (210_LED_CORE.h, 668-688)

    The four channel arguments are [uint8_t]; callers convert with
    [to_uint8].  The comparisons of the source are kept as written. *)
Definition clamp_byte_arg (r : Z) : Z :=
  if (r <? 0)%Z then 0%Z else if (255 <? r)%Z then 255%Z else r.

Definition SetPixelRGBW (index : nat) (r g b w : Z) (v : Vars.t) : bool * Vars.t :=
  if (Vars.Count v <=? index)%nat || (index <? 0)%nat then (false, v)
  else
    let r := clamp_byte_arg r in
    let g := clamp_byte_arg g in
    let b := clamp_byte_arg b in
    let w := clamp_byte_arg w in
    (true, Vars.set_Pixels (<[index := Pixel_byte.mk r g b w]> (Vars.Pixels v)) v).

(** ** [ShiftScaleChannel] (210_LED_CORE.h, 724-767) *)

(** The [switch (channel)] that selects [channelPtr], initialised to
    [&Pixel_float::R]. *)
Definition channel_member (channel : Z) : member :=
  match channel with
  | 0%Z => member_R
  | 1%Z => member_G
  | 2%Z => member_B
  | 3%Z => member_W
  | _ => member_R
  end.

Definition ShiftScaleChannel (newValue : Q) (channel : Z) (forward : bool)
    (v : Vars.t) : Vars.t :=
  if (Vars.Count v =? 0)%nat then v
  else if (channel <? 0)%Z || (3 <? channel)%Z then v
  else
    let channelPtr := channel_member channel in
    let lastIndex := (Vars.Count v - 1)%nat in
    if forward then
      let shifted :=
        for_downto_1 lastIndex
          (fun i scale =>
             assign_member channelPtr i (member_get channelPtr (scale !!! (i - 1)%nat)) scale)
          (Vars.Scale v) in
      Vars.set_Scale (assign_member channelPtr 0 newValue shifted) v
    else
      let shifted :=
        for_upto lastIndex
          (fun i scale =>
             assign_member channelPtr i (member_get channelPtr (scale !!! (i + 1)%nat)) scale)
          (Vars.Scale v) in
      Vars.set_Scale (assign_member channelPtr lastIndex newValue shifted) v.

(** ** [Effect] (210_LED_CORE.h, 277-346) *)

Definition randomInt (x y : Z) (g : Rng.t) : Z * Rng.t :=
  Rng.random x (y + 1) g.

Definition randomFloat (minValue maxValue : Q) (g : Rng.t) : Q * Rng.t :=
  let '(x, g') := Rng.rand g in
  let r := Z_to_float x / Z_to_float (Rng.RAND_MAX g) in
  (minValue + r * (maxValue - minValue), g').

Definition mapFloatToFloat (x x0 x1 y0 y1 : Q) : Q :=
  if Qle_bool x x0 then y0
  else if Qle_bool x1 x then y1
  else
    let t := (x - x0) / (x1 - x0) in
    y0 + t * (y1 - y0).

Definition applySmoothInterpolation (t : Q) : Q :=
  let t := constrain t 0 1 in
  t * t * (3 - 2 * t).

(** The body of [if (v.Effect[n].currentStep > v.Effect[n].numSteps)]: the
    start of a new hold or evolve phase of one channel. *)
Definition Effect_new_phase (c : Config.t) (e : Effect_Container.t) (g : Rng.t)
    : Effect_Container.t * Rng.t :=
  let prev := Effect_Container.next e in
  if Effect_Container.hold e then
    let '(k, g) := randomInt (float_to_int (Config.effectHoldMinSteps c))
                             (float_to_int (Config.effectHoldMaxSteps c)) g in
    (Effect_Container.mk prev (Effect_Container.next e) (Effect_Container.currentOutput e)
       (to_uint32 k) 0 (negb (Effect_Container.hold e)), g)
  else
    let '(next, g) := randomFloat (Config.effectMinAmplitude c) (Config.effectMaxAmplitude c) g in
    let diff := next - prev in
    let diffMappedSteps :=
      mapFloatToFloat diff (Config.effectMinAmplitude c) (Config.effectMaxAmplitude c)
                      (Config.effectEvolveMinSteps c) (Config.effectEvolveMaxSteps c) in
    let '(jitter, g) := randomFloat (8 # 10) (12 # 10) g in
    (Effect_Container.mk prev next (Effect_Container.currentOutput e)
       (float_to_uint32 (diffMappedSteps * jitter)) 0 (negb (Effect_Container.hold e)), g).

(** One iteration of [for (int n = 0; n < 4; n++)] on the channel record. *)
Definition Effect_channel (c : Config.t) (e : Effect_Container.t) (g : Rng.t)
    : Effect_Container.t * Rng.t :=
  let '(e, g) :=
    if (Effect_Container.numSteps e <? Effect_Container.currentStep e)%Z
    then Effect_new_phase c e g
    else (e, g) in
  let diff := Effect_Container.next e - Effect_Container.prev e in
  let progress :=
    Z_to_float (Effect_Container.currentStep e) / Z_to_float (Effect_Container.numSteps e) in
  let currentOutput := Effect_Container.prev e + applySmoothInterpolation progress * diff in
  (Effect_Container.mk (Effect_Container.prev e) (Effect_Container.next e) currentOutput
     (Effect_Container.numSteps e) (to_uint32 (Effect_Container.currentStep e + 1))
     (Effect_Container.hold e), g).

Definition Effect (c : Config.t) (vg : Vars.t * Rng.t) : Vars.t * Rng.t :=
  let '(v, g) := vg in
  if Config.effectActive c then
    let '(v, g) :=
      for_upto 4
        (fun n '(v, g) =>
           let '(e, g) := Effect_channel c (Vars.Effect v !!! n) g in
           (Vars.set_Effect (<[n := e]> (Vars.Effect v)) v, g))
        (v, g) in
    let v :=
      ShiftScaleChannel (Effect_Container.currentOutput (Vars.Effect v !!! 0%nat)) 0 true v in
    let v :=
      ShiftScaleChannel (Effect_Container.currentOutput (Vars.Effect v !!! 1%nat)) 1 false v in
    let v :=
      ShiftScaleChannel (Effect_Container.currentOutput (Vars.Effect v !!! 2%nat)) 2 true v in
    let v :=
      ShiftScaleChannel (Effect_Container.currentOutput (Vars.Effect v !!! 3%nat)) 3 false v in
    (v, g)
  else
    (for_upto 4 (fun n v => ShiftScaleChannel 1 0 true v) v, g).

(** ** [Init] (210_LED_CORE.h, 207-270); [Capacity] is [LED_COUNT] and [now]
    is [millis()] *)
Definition Init (Capacity : nat) (now : Z) (s : State.t) (c : Config.t) (v : Vars.t)
    : bool * (State.t * Config.t * Vars.t) :=
  if (Vars.Count v =? 0)%nat || (Capacity <? Vars.Count v)%nat then (false, (s, c, v))
  else
    let c :=
      Config.mk (Pixel_float.mk 255 0 0 0) (Pixel_float.mk 0 255 0 0) 255 1
        (Config.colorIncrement c) (Config.brightnessIncrement c) (Config.onoffIncrement c)
        (Config.processingIntervalMs c) (Config.effectIntervalMs c)
        (Config.gradientPaddingBegin c) (Config.gradientPaddingValue c)
        (Config.gradientMiddleEdgeSize c) (Config.gradientMiddleCenterSize c)
        (Config.gradientInterpolationMode c) (Config.gradientMode c)
        (Config.gradientInvertColors c)
        (Config.effectMinAmplitude c) (Config.effectMaxAmplitude c)
        (Config.effectEvolveMinSteps c) (Config.effectEvolveMaxSteps c)
        (Config.effectHoldMinSteps c) (Config.effectHoldMaxSteps c) (Config.effectActive c)
        (Config.count c) (Config.changeCounter c) (Config.lastModifiedMs c) in
    let s := State.mk true now now in
    let v :=
      for_upto (Vars.Count v)
        (fun i v =>
           Vars.set_Scale (<[i := Pixel_float.mk 1 1 1 1]> (Vars.Scale v))
             (Vars.set_Colors (<[i := Pixel_byte.mk 0 0 0 0]> (Vars.Colors v))
                (Vars.set_Pixels (<[i := Pixel_byte.mk 0 0 0 0]> (Vars.Pixels v)) v)))
        v in
    let v :=
      Vars.mk (Vars.Pixels v) (Vars.Colors v) (Vars.Scale v)
        (Pixel_float.mk 0 0 0 0) (Pixel_float.mk 0 0 0 0)
        (Vars.brightness v) 1 (Vars.Count v)
        (for_upto 4
           (fun n eff => <[n := Effect_Container.mk 1 1 1 0 1 false]> eff)
           (Vars.Effect v)) in
    (true, (s, c, v)).

(** ** Change tracking (210_LED_CORE.h, 697-702); [now] is [millis()] *)
Definition MarkChangeInConfig (now : Z) (c : Config.t) : Config.t :=
  Config.set_change (to_uint32 (Config.changeCounter c + 1)) now c.

Definition SetStagingBrightness (brightness : Q) (now : Z) (c : Config.t) : Config.t :=
  MarkChangeInConfig now (Config.set_brightnessStaging brightness c).

(** ** The Fader: [StepTowards] (383-388) and [Fade] (400-443) *)

Definition StepTowards (current target step : Q) : Q :=
  if Qle_bool step 0 then target
  else
    let diff := target - current in
    if Qle_bool (fabsf diff) step then target
    else current + (if Qltb 0 diff then step else - step).

(** The three places where [Fade] steps one scalar, clamps it and counts the
    change: the brightness block and the [stepChannel] lambda clamp to
    [0, 255], the on/off block to [0, 1]. *)
Definition stepChannel (high : Q) (channel target step : Q) (changes : Z) : Q * Z :=
  let prev := channel in
  let channel := StepTowards prev target step in
  let channel := constrain channel 0 high in
  (channel, if Qltb (1 # 100000) (fabsf (channel - prev)) then to_uint8 (changes + 1) else changes).

Definition Fade (c : Config.t) (v : Vars.t) : Z * Vars.t :=
  let changes := 0%Z in
  let '(brightness, changes) :=
    stepChannel 255 (Vars.brightness v) (Config.brightnessStaging c)
                (Config.brightnessIncrement c) changes in
  let '(onoffFactor, changes) :=
    stepChannel 1 (Vars.onoffFactor v) (Config.onoffStaging c)
                (Config.onoffIncrement c) changes in
  let inc := Config.colorIncrement c in
  let one := Vars.colorOne v in
  let two := Vars.colorTwo v in
  let oneS := Config.colorOneStaging c in
  let twoS := Config.colorTwoStaging c in
  let '(r1, changes) := stepChannel 255 (Pixel_float.R one) (Pixel_float.R oneS) inc changes in
  let '(g1, changes) := stepChannel 255 (Pixel_float.G one) (Pixel_float.G oneS) inc changes in
  let '(b1, changes) := stepChannel 255 (Pixel_float.B one) (Pixel_float.B oneS) inc changes in
  let '(w1, changes) := stepChannel 255 (Pixel_float.W one) (Pixel_float.W oneS) inc changes in
  let '(r2, changes) := stepChannel 255 (Pixel_float.R two) (Pixel_float.R twoS) inc changes in
  let '(g2, changes) := stepChannel 255 (Pixel_float.G two) (Pixel_float.G twoS) inc changes in
  let '(b2, changes) := stepChannel 255 (Pixel_float.B two) (Pixel_float.B twoS) inc changes in
  let '(w2, changes) := stepChannel 255 (Pixel_float.W two) (Pixel_float.W twoS) inc changes in
  (changes,
   Vars.mk (Vars.Pixels v) (Vars.Colors v) (Vars.Scale v)
           (Pixel_float.mk r1 g1 b1 w1) (Pixel_float.mk r2 g2 b2 w2)
           brightness onoffFactor (Vars.Count v) (Vars.Effect v)).

(** ** The gradient synthesizer: [ComputeGradient] (448-619) *)

Definition ApplyInterpolation (t : Q) (mode : InterpolationMode) : Q :=
  let t := constrain t 0 1 in
  match mode with
  | Smooth => t * t * (3 - 2 * t)
  | Linear => t
  end.

Definition applyColor (index : nat) (src : Pixel_float.t) (v : Vars.t) : Vars.t :=
  Vars.set_Colors
    (<[index := Pixel_byte.mk (float_to_uint8 (Pixel_float.R src))
                              (float_to_uint8 (Pixel_float.G src))
                              (float_to_uint8 (Pixel_float.B src))
                              (float_to_uint8 (Pixel_float.W src))]> (Vars.Colors v)) v.

Definition blendColors (a b : Pixel_float.t) (t : Q) : Pixel_float.t :=
  let t := constrain t 0 1 in
  Pixel_float.mk
    (Pixel_float.R a + (Pixel_float.R b - Pixel_float.R a) * t)
    (Pixel_float.G a + (Pixel_float.G b - Pixel_float.G a) * t)
    (Pixel_float.B a + (Pixel_float.B b - Pixel_float.B a) * t)
    (Pixel_float.W a + (Pixel_float.W b - Pixel_float.W a) * t).

Definition ComputeGradient_LINEAR_PADDING (c : Config.t)
    (primaryColor secondaryColor : Pixel_float.t) (v : Vars.t) : Vars.t :=
  let padStart := constrain (Config.gradientPaddingBegin c) 0 (4 # 10) in
  let padValue := constrain (Config.gradientPaddingValue c) 0 1 in
  let n := Vars.Count v in
  if (n =? 0)%nat then v
  else if (n =? 1)%nat then
    let w2 := 1 # 2 in
    applyColor 0 (blendColors primaryColor secondaryColor w2) v
  else
    let startIdx := padStart * size_to_float (n - 1) in
    let endIdx := (1 - padStart) * size_to_float (n - 1) in
    let range := endIdx - startIdx in
    for_upto n
      (fun i v =>
         let w1 :=
           if Qle_bool (size_to_float i) startIdx then padValue
           else if Qle_bool endIdx (size_to_float i) || Qle_bool range 0 then 1 - padValue
           else
             let t := (size_to_float i - startIdx) / range in
             padValue + (1 - 2 * padValue) * constrain t 0 1 in
         let w2 := 1 - w1 in
         let w1 := constrain w1 0 1 in
         let w2 := constrain w2 0 1 in
         applyColor i (blendColors primaryColor secondaryColor w2) v)
      v.

Definition ComputeGradient_EDGE_CENTER (c : Config.t)
    (primaryColor secondaryColor : Pixel_float.t) (v : Vars.t) : Vars.t :=
  let edgeSize := constrain (Config.gradientMiddleEdgeSize c) 0 (1 # 2) in
  let centerSize := constrain (Config.gradientMiddleCenterSize c) 0 1 in
  let maxCenter := 1 - 2 * edgeSize in
  let centerSize := if Qltb maxCenter centerSize then maxCenter else centerSize in
  let centerSize := if Qltb centerSize 0 then 0 else centerSize in
  let transitionTotal := 1 - (2 * edgeSize + centerSize) in
  let transitionTotal := if Qltb transitionTotal 0 then 0 else transitionTotal in
  let halfTransition := transitionTotal * (1 # 2) in
  let leftEdgeEnd := edgeSize in
  let leftTransitionEnd := leftEdgeEnd + halfTransition in
  let centerEnd := leftTransitionEnd + centerSize in
  let rightTransitionEnd := centerEnd + halfTransition in
  let n := Vars.Count v in
  for_upto n
    (fun i v =>
       let x := if (n <=? 1)%nat then 0 else size_to_float i / size_to_float (n - 1) in
       if Qle_bool x leftEdgeEnd || Qle_bool halfTransition (1 # 1000000) then
         applyColor i primaryColor v
       else if Qltb x leftTransitionEnd && Qltb (1 # 1000000) halfTransition then
         let t := (x - leftEdgeEnd) / halfTransition in
         let blend := ApplyInterpolation t (Config.gradientInterpolationMode c) in
         applyColor i (blendColors primaryColor secondaryColor blend) v
       else if Qltb x centerEnd then
         applyColor i secondaryColor v
       else if Qltb x rightTransitionEnd && Qltb (1 # 1000000) halfTransition then
         let t := (x - centerEnd) / halfTransition in
         let blend := ApplyInterpolation t (Config.gradientInterpolationMode c) in
         applyColor i (blendColors secondaryColor primaryColor blend) v
       else
         applyColor i primaryColor v)
    v.

Definition ComputeGradient (mode : GradientMode) (invertColors : bool)
    (c : Config.t) (v : Vars.t) : Vars.t :=
  if (Vars.Count v =? 0)%nat then v
  else
    let primaryColor := if invertColors then Vars.colorTwo v else Vars.colorOne v in
    let secondaryColor := if invertColors then Vars.colorOne v else Vars.colorTwo v in
    match mode with
    | SINGLE_COLOR =>
        for_upto (Vars.Count v) (fun i v => applyColor i primaryColor v) v
    | MIDPOINT_SPLIT =>
        let splitIndex := ((Vars.Count v + 1) / 2)%nat in
        for_upto (Vars.Count v)
          (fun i v =>
             let src := if (i <? splitIndex)%nat then primaryColor else secondaryColor in
             applyColor i src v)
          v
    | LINEAR_PADDING => ComputeGradient_LINEAR_PADDING c primaryColor secondaryColor v
    | EDGE_CENTER => ComputeGradient_EDGE_CENTER c primaryColor secondaryColor v
    | LINEAR =>
        if (Vars.Count v <=? 1)%nat then
          for_upto (Vars.Count v) (fun i v => applyColor i primaryColor v) v
        else
          for_upto (Vars.Count v)
            (fun i v =>
               let t := size_to_float i / size_to_float (Vars.Count v - 1) in
               applyColor i (blendColors primaryColor secondaryColor t) v)
            v
    end.

(** ** The output quantizer: [ApplyOutputScaling] (632-662) *)

(** The body of the loop over the pixels. *)
Definition ApplyOutputScaling_pixel (brightnessNorm onOff : Q) (i : nat) (v : Vars.t) : Vars.t :=
  let color := Vars.Colors v !!! i in
  let scale := Vars.Scale v !!! i in
  let scaledR := Z_to_float (Pixel_byte.R color) * Pixel_float.R scale in
  let scaledG := Z_to_float (Pixel_byte.G color) * Pixel_float.G scale in
  let scaledB := Z_to_float (Pixel_byte.B color) * Pixel_float.B scale in
  let scaledW := Z_to_float (Pixel_byte.W color) * Pixel_float.W scale in
  let baseR := constrain scaledR 0 255 in
  let baseG := constrain scaledG 0 255 in
  let baseB := constrain scaledB 0 255 in
  let baseW := constrain scaledW 0 255 in
  let finalR := baseR * brightnessNorm * onOff in
  let finalG := baseG * brightnessNorm * onOff in
  let finalB := baseB * brightnessNorm * onOff in
  let finalW := baseW * brightnessNorm * onOff in
  let ri := float_to_int (finalR + (1 # 2)) in
  let gi := float_to_int (finalG + (1 # 2)) in
  let bi := float_to_int (finalB + (1 # 2)) in
  let wi := float_to_int (finalW + (1 # 2)) in
  snd (SetPixelRGBW i (to_uint8 ri) (to_uint8 gi) (to_uint8 bi) (to_uint8 wi) v).

Definition ApplyOutputScaling (v : Vars.t) : Vars.t :=
  let brightnessNorm := constrain (Vars.brightness v) 0 255 / 255 in
  let onOff := Vars.onoffFactor v in
  let n := Vars.Count v in
  for_upto n (ApplyOutputScaling_pixel brightnessNorm onOff) v.

(** ** The EDGE_CENTER setters of the console (300_CONSOLE.h) *)





(** ** The remaining utilities of [210_LED_CORE.h] *)

(** [GetBrightness] (366-368): the live brightness returned as [uint8_t]. *)
Definition GetBrightness (v : Vars.t) : Z := float_to_uint8 (Vars.brightness v).

(** [ProvokeImmediateSaveOfConfig] (710-715); [now] is [millis()]. *)
Definition ProvokeImmediateSaveOfConfig (now : Z) (c : Config.t) : Config.t :=
  Config.set_change (to_uint32 (Config.changeCounter c + 1)) (to_uint32 (now - 3600000)) c.

(** [Clear] (785-793). *)
Definition Clear (v : Vars.t) : Vars.t :=
  for_upto (Vars.Count v)
    (fun i v => Vars.set_Colors (<[i := Pixel_byte.mk 0 0 0 0]> (Vars.Colors v)) v) v.

(** [MapCubic100to255] (798-809). *)
Definition MapCubic100to255 (x : Z) : Z :=
  let inputMin := 0%Z in
  let inputMax := 100%Z in
  let outputMax := 255%Z in
  if (x <=? inputMin)%Z then 0%Z
  else if (inputMax <=? x)%Z then outputMax
  else
    let normalized := Z_to_float x / Z_to_float inputMax in
    let scaled := normalized * normalized * normalized in
    float_to_int (scaled * Z_to_float outputMax + (1 # 2)).

(** ** The public LED interface: [200_LED_LINKER.h] *)

Definition Config_set_colorOneStaging (x : Pixel_float.t) (c : Config.t) : Config.t :=
  Config.mk x (Config.colorTwoStaging c) (Config.brightnessStaging c) (Config.onoffStaging c)
    (Config.colorIncrement c) (Config.brightnessIncrement c) (Config.onoffIncrement c)
    (Config.processingIntervalMs c) (Config.effectIntervalMs c)
    (Config.gradientPaddingBegin c) (Config.gradientPaddingValue c)
    (Config.gradientMiddleEdgeSize c) (Config.gradientMiddleCenterSize c)
    (Config.gradientInterpolationMode c) (Config.gradientMode c)
    (Config.gradientInvertColors c)
    (Config.effectMinAmplitude c) (Config.effectMaxAmplitude c)
    (Config.effectEvolveMinSteps c) (Config.effectEvolveMaxSteps c)
    (Config.effectHoldMinSteps c) (Config.effectHoldMaxSteps c) (Config.effectActive c)
    (Config.count c) (Config.changeCounter c) (Config.lastModifiedMs c).

Definition Config_set_colorTwoStaging (x : Pixel_float.t) (c : Config.t) : Config.t :=
  Config.mk (Config.colorOneStaging c) x (Config.brightnessStaging c) (Config.onoffStaging c)
    (Config.colorIncrement c) (Config.brightnessIncrement c) (Config.onoffIncrement c)
    (Config.processingIntervalMs c) (Config.effectIntervalMs c)
    (Config.gradientPaddingBegin c) (Config.gradientPaddingValue c)
    (Config.gradientMiddleEdgeSize c) (Config.gradientMiddleCenterSize c)
    (Config.gradientInterpolationMode c) (Config.gradientMode c)
    (Config.gradientInvertColors c)
    (Config.effectMinAmplitude c) (Config.effectMaxAmplitude c)
    (Config.effectEvolveMinSteps c) (Config.effectEvolveMaxSteps c)
    (Config.effectHoldMinSteps c) (Config.effectHoldMaxSteps c) (Config.effectActive c)
    (Config.count c) (Config.changeCounter c) (Config.lastModifiedMs c).

Module LED.

Inductive SetTarget : Type :=
| BRIGHTNESS
| COLOR_ONE
| COLOR_TWO.

(** [LED::UpdateColor] (160-171): the hardware write is commented out in the
    source, the loop only reads [Pixels]. *)
Definition UpdateColor (v : Vars.t) : Vars.t := v.

(** [LED::Update] (114-150).  [t1] .. [t4] are the four readings of
    [millis()], in the order the source takes them; the subtraction is on
    [uint32_t]. *)
Definition Update (t1 t2 t3 t4 : Z) (s : State.t) (c : Config.t) (vg : Vars.t * Rng.t)
    : State.t * (Vars.t * Rng.t) :=
  let '(s, vg) :=
    if (Config.processingIntervalMs c
        <? to_uint32 (t1 - State.processingLastExecutionMs s))%Z
    then
      let s := State.mk (State.active s) t2 (State.effectLastExecutionMs s) in
      let v := snd (Fade c (fst vg)) in
      let v := ComputeGradient (Config.gradientMode c) (Config.gradientInvertColors c) c v in
      let v := ApplyOutputScaling v in
      let v := UpdateColor v in
      (s, (v, snd vg))
    else (s, vg) in
  if (Config.effectIntervalMs c <? to_uint32 (t3 - State.effectLastExecutionMs s))%Z
  then (State.mk (State.active s) (State.processingLastExecutionMs s) t4, Effect c vg)
  else (s, vg).

(** [LED::SetBrightness] (175-177); the argument is a [uint8_t]. *)
Definition SetBrightness (brightness : Z) (now : Z) (c : Config.t) : Config.t :=
  SetStagingBrightness (Z_to_float brightness) now c.

(** [LED::Set(target, r, g, b, w)] (190-216); the channel arguments are
    [uint8_t]. *)
Definition Set_color (target : SetTarget) (r g b w : Z) (now : Z) (c : Config.t)
    : bool * Config.t :=
  let pix := Pixel_float.mk (Z_to_float r) (Z_to_float g) (Z_to_float b) (Z_to_float w) in
  let '(applied, c) :=
    match target with
    | COLOR_ONE => (true, Config_set_colorOneStaging pix c)
    | COLOR_TWO => (true, Config_set_colorTwoStaging pix c)
    | BRIGHTNESS => (false, c)
    end in
  if applied then (true, MarkChangeInConfig now c) else (false, c).

(** [LED::Set(target, value)] (225-233); [now1] and [now2] are the readings of
    [millis()] inside [SetStagingBrightness] and inside the second
    [MarkChangeInConfig]. *)
Definition Set_value (target : SetTarget) (value : Z) (now1 now2 : Z) (c : Config.t)
    : bool * Config.t :=
  match target with
  | BRIGHTNESS =>
      (true, MarkChangeInConfig now2 (SetStagingBrightness (Z_to_float value) now1 c))
  | _ => (false, c)
  end.

(** [LED::Clear] (237-241), without the two hardware calls. *)
Definition Clear (v : Vars.t) : Vars.t := Clear v.

End LED.

(** ** Persistence of the configuration: [400_SETTINGS.h]

    Bytes are integers in [0, 255].  The configuration struct is stored as
    its object representation, a list of [sizeof(T)] bytes; [CONFIG_VERSION]
    is the list of the characters of the string literal, without the
    terminator.  The [Preferences] store holds at most one blob under the
    key, [getBytes] reads back what [putBytes] stored, and the target is
    little-endian. *)

Definition to_uint16 (z : Z) : Z := (z mod 2 ^ 16)%Z.

Module SETTINGS.

Definition kMaxBlobBuffer : nat := 512.

(** [simpleChecksum] (76-80). *)
Definition simpleChecksum (data : list Z) : Z :=
  let s := fold_left (fun s b => to_uint32 (s + b)) data 0%Z in
  to_uint16 (Z.land s 65535).

(** [strlen]. *)
Fixpoint strlen (s : list Z) : nat :=
  match s with
  | [] => 0
  | b :: s' => if (b =? 0)%Z then 0 else S (strlen s')
  end.

(** [SaveStructPref] (184-233); [putBytes_ok] is the outcome of
    [pref.putBytes], [pref] the blob stored under the key. *)
Definition SaveStructPref (CONFIG_VERSION obj : list Z) (putBytes_ok : bool)
    (pref : option (list Z)) : bool * option (list Z) :=
  let kSketchVersionLen := length CONFIG_VERSION in
  let payloadLen := length obj in
  let total := (kSketchVersionLen + payloadLen + 2)%nat in
  if (kMaxBlobBuffer <? total)%nat then (false, pref)
  else
    let copyLen := strlen CONFIG_VERSION in
    let copyLen := if (kSketchVersionLen <? copyLen)%nat then kSketchVersionLen else copyLen in
    let version :=
      take copyLen CONFIG_VERSION ++ drop copyLen (replicate kSketchVersionLen 0%Z) in
    let csum := simpleChecksum obj in
    let blob := version ++ obj ++ [(csum mod 256)%Z; (csum / 256)%Z] in
    if putBytes_ok then (true, Some blob) else (false, pref).

(** [LoadStructPref] (87-182); [outObj] is the object representation of the
    output object, which is overwritten before the checksum is compared. *)
Definition LoadStructPref (CONFIG_VERSION outObj : list Z) (pref : option (list Z))
    : bool * list Z :=
  let kSketchVersionLen := length CONFIG_VERSION in
  let blob := default [] pref in
  let total := length blob in
  if (total =? 0)%nat then (false, outObj)
  else
    let minHeader := (kSketchVersionLen + 2)%nat in
    if (total <? minHeader)%nat then (false, outObj)
    else if (kMaxBlobBuffer <? total)%nat then (false, outObj)
    else if negb (bool_decide (take kSketchVersionLen blob = CONFIG_VERSION))
    then (false, outObj)
    else
      let payloadLen := (total - (kSketchVersionLen + 2))%nat in
      if negb (payloadLen =? length outObj)%nat then (false, outObj)
      else
        let outObj := take payloadLen (drop kSketchVersionLen blob) in
        let cur := (kSketchVersionLen + payloadLen)%nat in
        let storedCsum := (blob !!! cur + 256 * blob !!! (cur + 1)%nat)%Z in
        let computed := simpleChecksum outObj in
        if negb (storedCsum =? computed)%Z then (false, outObj) else (true, outObj).

(** The module state: the debounce interval and the change counter of the
    last save. *)
Record t : Type := mk {
  g_autoSaveDelayMs : Z;
  g_lastSavedCounter : Z
}.

Definition initial : t := mk 15000 0.

(** [SetAutoSaveIntervalMs] (321-323). *)
Definition SetAutoSaveIntervalMs (ms : Z) (st : t) : t := mk ms (g_lastSavedCounter st).

Section Object_representation.

(** The object representation of [LED::Config], and the version literal. *)
Variable object_bytes : Config.t -> list Z.
Variable CONFIG_VERSION : list Z.

(** [SaveConfig(ConfigId::LED)] (249-256). *)
Definition SaveConfig (putBytes_ok : bool) (c : Config.t) (pref : option (list Z))
    : bool * option (list Z) :=
  SaveStructPref CONFIG_VERSION (object_bytes c) putBytes_ok pref.

(** [Update] (339-367); [now] is [millis()]. *)
Definition Update (now : Z) (putBytes_ok : bool) (c : Config.t)
    (st : t * option (list Z)) : bool * (t * option (list Z)) :=
  let '(st, pref) := st in
  let savedAny := false in
  if negb (Config.changeCounter c =? g_lastSavedCounter st)%Z then
    let elapsed := to_uint32 (now - Config.lastModifiedMs c) in
    if (g_autoSaveDelayMs st <=? elapsed)%Z then
      let '(ok, pref) := SaveConfig putBytes_ok c pref in
      if ok then (true, (mk (g_autoSaveDelayMs st) (Config.changeCounter c), pref))
      else (savedAny, (st, pref))
    else (savedAny, (st, pref))
  else (savedAny, (st, pref)).

(** [SaveNow] (418-424). *)
Definition SaveNow (putBytes_ok : bool) (c : Config.t) (st : t * option (list Z))
    : bool * (t * option (list Z)) :=
  let '(st, pref) := st in
  let '(ok, pref) := SaveConfig putBytes_ok c pref in
  if ok then (ok, (mk (g_autoSaveDelayMs st) (Config.changeCounter c), pref))
  else (ok, (st, pref)).

End Object_representation.

End SETTINGS.

(** ** The command line of [300_CONSOLE.h]

    Characters are their codes.  [cmd] is the part of [cmdBuffer] below
    [cmdPos]; [World] stands for everything a command can reach besides the
    line buffer: the restart request below, the LED configuration, the serial
    output. *)

Module CONSOLE.

Definition CMD_BUFFER_CAPACITY : nat := 96.

Record restart : Type := mk_restart {
  systemRestartPending : bool;
  systemRestartDeadlineMs : Z
}.

(** [ScheduleSystemRestart] (956-959); [now] is [millis()]. *)
Definition ScheduleSystemRestart (delayMs now : Z) (r : restart) : restart :=
  mk_restart true (to_uint32 (now + delayMs)).

(** [ProcessPendingRestart] (961-971): the new request state, and whether
    [ESP.restart()] is reached. *)
Definition ProcessPendingRestart (now : Z) (r : restart) : restart * bool :=
  if negb (systemRestartPending r) then (r, false)
  else if (to_int (to_uint32 (now - systemRestartDeadlineMs r)) <? 0)%Z then (r, false)
  else (mk_restart false (systemRestartDeadlineMs r), true).

(** The C string that starts at the head of a character array. *)
Fixpoint c_str (s : list Z) : list Z :=
  match s with
  | [] => []
  | b :: s' => if (b =? 0)%Z then [] else b :: c_str s'
  end.

Section Command_line.

Variable World : Type.
Variable EvaluateCommand : list Z -> restart * World -> restart * World.
Variable PrintResponseLine_overflow : World -> World.

(** The body of the [while] loop of [Process] (113-136) for one character
    read. *)
Definition Process_char (ch : Z) (st : list Z * (restart * World))
    : list Z * (restart * World) :=
  let '(cmd, rw) := st in
  if (ch =? 13)%Z then st
  else if (ch =? 10)%Z then
    ([], if (0 <? length cmd)%nat then EvaluateCommand (c_str cmd) rw else rw)
  else if (length cmd + 1 <? CMD_BUFFER_CAPACITY)%nat then (cmd ++ [ch], rw)
  else ([], (fst rw, PrintResponseLine_overflow (snd rw))).

(** The loop over the characters the serial port has available; a negative
    value read ends it. *)
Fixpoint Process_loop (input : list Z) (st : list Z * (restart * World))
    : list Z * (restart * World) :=
  match input with
  | [] => st
  | c :: input' =>
      if (c <? 0)%Z then st else Process_loop input' (Process_char (c mod 256)%Z st)
  end.

(** [Process] (104-140); [ENABLE] is [ENABLE_COMMAND_LINE_INTERFACE]. *)
Definition Process (ENABLE : bool) (input : list Z) (now : Z)
    (st : list Z * (restart * World)) : list Z * (restart * World) * bool :=
  let '(cmd, (r, w)) := if ENABLE then Process_loop input st else st in
  let '(r, fired) := ProcessPendingRestart now r in
  ((cmd, (r, w)), fired).

End Command_line.

End CONSOLE.

(** ** The bridge between the device mirror and the LED core:
    [100_DEVICE_LINKER.h]

    [fmodf] and [lroundf] are exact on the rationals: the remainder of the
    division truncated toward zero, and rounding to the nearest integer with
    ties away from zero. *)

Definition fmodf (x y : Q) : Q := x - inject_Z (float_to_Z (x / y)) * y.

Definition lroundf (x : Q) : Z :=
  if Qltb x 0 then (- Qfloor (- x + (1 # 2)))%Z else Qfloor (x + (1 # 2)).

Definition fminf (a b : Q) : Q := if Qltb b a then b else a.

(** [max] and [min] of the Arduino core ([std::max], [std::min]). *)
Definition max_float (a b : Q) : Q := if Qltb a b then b else a.
Definition min_float (a b : Q) : Q := if Qltb b a then b else a.

(** [constrain] on [int]. *)
Definition constrain_int (amt low high : Z) : Z :=
  if (amt <? low)%Z then low else if (high <? amt)%Z then high else amt.

Definition Config_set_onoffStaging (x : Q) (c : Config.t) : Config.t :=
  Config.mk (Config.colorOneStaging c) (Config.colorTwoStaging c) (Config.brightnessStaging c) x
    (Config.colorIncrement c) (Config.brightnessIncrement c) (Config.onoffIncrement c)
    (Config.processingIntervalMs c) (Config.effectIntervalMs c)
    (Config.gradientPaddingBegin c) (Config.gradientPaddingValue c)
    (Config.gradientMiddleEdgeSize c) (Config.gradientMiddleCenterSize c)
    (Config.gradientInterpolationMode c) (Config.gradientMode c)
    (Config.gradientInvertColors c)
    (Config.effectMinAmplitude c) (Config.effectMaxAmplitude c)
    (Config.effectEvolveMinSteps c) (Config.effectEvolveMaxSteps c)
    (Config.effectHoldMinSteps c) (Config.effectHoldMaxSteps c) (Config.effectActive c)
    (Config.count c) (Config.changeCounter c) (Config.lastModifiedMs c).

Module MAIN.

Record Mirror : Type := mk_Mirror {
  onoff : bool;
  level : Z;
  hue1 : Q;
  sat1 : Q;
  hue2 : Q;
  sat2 : Q
}.

Record HsvColor : Type := mk_HsvColor { hue : Q; saturation : Q }.

(** [detail::NormalizeHue] (159-163). *)
Definition NormalizeHue (hue : Q) : Q :=
  let normalized := fmodf hue 360 in
  if Qltb normalized 0 then normalized + 360 else normalized.

(** [detail::MirrorLevelToBrightness] (165-168). *)
Definition MirrorLevelToBrightness (level : Z) : Q :=
  let clamped := constrain_int level 0 100 in
  (Z_to_float clamped / 100) * 255.

(** [detail::BrightnessToMirrorLevel] (170-173). *)
Definition BrightnessToMirrorLevel (brightness : Q) : Z :=
  let clamped := constrain brightness 0 255 in
  to_int (lroundf ((clamped / 255) * 100)).

(** [detail::SanitizeMirror] (175-184). *)
Definition SanitizeMirror (source : Mirror) : Mirror :=
  mk_Mirror (onoff source)
    (constrain_int (level source) 0 100)
    (NormalizeHue (hue1 source)) (constrain (sat1 source) 0 100)
    (NormalizeHue (hue2 source)) (constrain (sat2 source) 0 100).

(** [detail::MirrorColorToPixel] (186-241); [rgbw] is the flag behind
    [RgbwConversionEnabled()]. *)
Definition MirrorColorToPixel (rgbw : bool) (hueDeg satPercent : Q) : Pixel_float.t :=
  let hue := NormalizeHue hueDeg in
  let saturation := constrain satPercent 0 100 / 100 in
  let value := 1 in
  let c := value * saturation in
  let x := c * (1 - fabsf (fmodf (hue / 60) 2 - 1)) in
  let m := value - c in
  let '(r1, g1, b1) :=
    if Qltb hue 60 then (c, x, 0)
    else if Qltb hue 120 then (x, c, 0)
    else if Qltb hue 180 then (0, c, x)
    else if Qltb hue 240 then (0, x, c)
    else if Qltb hue 300 then (x, 0, c)
    else (c, 0, x) in
  let finalR := r1 + m in
  let finalG := g1 + m in
  let finalB := b1 + m in
  if rgbw then
    let whiteness := fminf finalR (fminf finalG finalB) in
    let red := finalR - whiteness in
    let green := finalG - whiteness in
    let blue := finalB - whiteness in
    Pixel_float.mk (constrain red 0 1 * 255) (constrain green 0 1 * 255)
                   (constrain blue 0 1 * 255) (constrain whiteness 0 1 * 255)
  else
    Pixel_float.mk (constrain finalR 0 1 * 255) (constrain finalG 0 1 * 255)
                   (constrain finalB 0 1 * 255) 0.

(** [detail::PixelToHsv] (243-280). *)
Definition PixelToHsv (pix : Pixel_float.t) : HsvColor :=
  let r := constrain (Pixel_float.R pix) 0 255 in
  let g := constrain (Pixel_float.G pix) 0 255 in
  let b := constrain (Pixel_float.B pix) 0 255 in
  let w := constrain (Pixel_float.W pix) 0 255 in
  let rMix := constrain (r + w) 0 255 in
  let gMix := constrain (g + w) 0 255 in
  let bMix := constrain (b + w) 0 255 in
  let rNorm := rMix / 255 in
  let gNorm := gMix / 255 in
  let bNorm := bMix / 255 in
  let maxVal := max_float rNorm (max_float gNorm bNorm) in
  let minVal := min_float rNorm (min_float gNorm bNorm) in
  let delta := maxVal - minVal in
  let hue := 0 in
  let hue :=
    if Qltb (1 # 100000) delta then
      if Qeq_bool maxVal rNorm then 60 * fmodf ((gNorm - bNorm) / delta) 6
      else if Qeq_bool maxVal gNorm then 60 * ((bNorm - rNorm) / delta + 2)
      else 60 * ((rNorm - gNorm) / delta + 4)
    else hue in
  let hue := if Qltb hue 0 then hue + 360 else hue in
  let saturation := if Qle_bool maxVal (1 # 100000) then 0 else delta / maxVal in
  mk_HsvColor hue (saturation * 100).

(** [ApplyMirrorToCoreConfig] (60-71); [now] is [millis()]. *)
Definition ApplyMirrorToCoreConfig (rgbw : bool) (now : Z) (st : Mirror * Config.t)
    : Mirror * Config.t :=
  let '(mirror, cfg) := st in
  let sanitized := SanitizeMirror mirror in
  let mirror := sanitized in
  let cfg :=
    Config_set_colorOneStaging (MirrorColorToPixel rgbw (hue1 sanitized) (sat1 sanitized)) cfg in
  let cfg :=
    Config_set_colorTwoStaging (MirrorColorToPixel rgbw (hue2 sanitized) (sat2 sanitized)) cfg in
  let cfg := Config.set_brightnessStaging (MirrorLevelToBrightness (level sanitized)) cfg in
  let cfg := Config_set_onoffStaging (if onoff sanitized then 1 else 0) cfg in
  (mirror, MarkChangeInConfig now cfg).

(** [ApplyCoreConfigToMirror] (73-88). *)
Definition ApplyCoreConfigToMirror (st : Mirror * Config.t) : Mirror * Config.t :=
  let '(mirror, cfg) := st in
  let hsvOne := PixelToHsv (Config.colorOneStaging cfg) in
  let hsvTwo := PixelToHsv (Config.colorTwoStaging cfg) in
  let mirror :=
    mk_Mirror (Qle_bool (1 # 2) (Config.onoffStaging cfg))
      (BrightnessToMirrorLevel (Config.brightnessStaging cfg))
      (hue hsvOne) (saturation hsvOne) (hue hsvTwo) (saturation hsvTwo) in
  (SanitizeMirror mirror, cfg).

(** [MirrorUpdated] (90). *)
Definition MirrorUpdated (rgbw : bool) (now : Z) (st : Mirror * Config.t)
    : Mirror * Config.t :=
  ApplyMirrorToCoreConfig rgbw now st.

(** [SetMirrorColorFromPixel] (108-130); the pixel channels are bytes. *)
Definition SetMirrorColorFromPixel (rgbw : bool) (target : LED.SetTarget)
    (pix : Pixel_byte.t) (now : Z) (st : Mirror * Config.t) : bool * (Mirror * Config.t) :=
  match target with
  | LED.BRIGHTNESS => (false, st)
  | _ =>
      let '(mirror, cfg) := st in
      let floatPix :=
        Pixel_float.mk (Z_to_float (Pixel_byte.R pix)) (Z_to_float (Pixel_byte.G pix))
                       (Z_to_float (Pixel_byte.B pix)) (Z_to_float (Pixel_byte.W pix)) in
      let hsv := PixelToHsv floatPix in
      let mirror :=
        match target with
        | LED.COLOR_ONE =>
            mk_Mirror (onoff mirror) (level mirror) (hue hsv) (saturation hsv)
                      (hue2 mirror) (sat2 mirror)
        | _ =>
            mk_Mirror (onoff mirror) (level mirror) (hue1 mirror) (sat1 mirror)
                      (hue hsv) (saturation hsv)
        end in
      (true, MirrorUpdated rgbw now (mirror, cfg))
  end.

(** [SetMirrorBrightness] (132-139); the argument is a [uint8_t]. *)
Definition SetMirrorBrightness (rgbw : bool) (brightness : Z) (now : Z)
    (st : Mirror * Config.t) : bool * (Mirror * Config.t) :=
  let '(mirror, cfg) := st in
  let newLevel := BrightnessToMirrorLevel (Z_to_float brightness) in
  if (level mirror =? newLevel)%Z then (false, st)
  else
    let mirror :=
      mk_Mirror (onoff mirror) newLevel (hue1 mirror) (sat1 mirror)
                (hue2 mirror) (sat2 mirror) in
    (true, MirrorUpdated rgbw now (mirror, cfg)).

(** [SetMirrorOnOff] (141-147). *)
Definition SetMirrorOnOff (rgbw : bool) (on : bool) (now : Z) (st : Mirror * Config.t)
    : bool * (Mirror * Config.t) :=
  let '(mirror, cfg) := st in
  if eqb (onoff mirror) on then (false, st)
  else
    let mirror :=
      mk_Mirror on (level mirror) (hue1 mirror) (sat1 mirror) (hue2 mirror) (sat2 mirror) in
    (true, MirrorUpdated rgbw now (mirror, cfg)).

End MAIN.

(** * Vocabulary of the statements *)

(** The values of a [uint8_t]. *)
Definition is_uint8 (z : Z) : Prop := (0 <= z <= 255)%Z.

Definition byte_pixel (p : Pixel_byte.t) : Prop :=
  is_uint8 (Pixel_byte.R p) /\ is_uint8 (Pixel_byte.G p) /\
  is_uint8 (Pixel_byte.B p) /\ is_uint8 (Pixel_byte.W p).

(** What [ApplyOutputScaling] stores in one channel of one pixel, as a function
    of the colour byte, the scale and the two global factors. *)
Definition quantize_channel (brightnessNorm onOff : Q) (color : Z) (scale : Q) : Z :=
  clamp_byte_arg
    (to_uint8
       (float_to_int
          (constrain (Z_to_float color * scale) 0 255 * brightnessNorm * onOff + (1 # 2)))).

Definition quantize_pixel (brightnessNorm onOff : Q)
    (color : Pixel_byte.t) (scale : Pixel_float.t) : Pixel_byte.t :=
  Pixel_byte.mk
    (quantize_channel brightnessNorm onOff (Pixel_byte.R color) (Pixel_float.R scale))
    (quantize_channel brightnessNorm onOff (Pixel_byte.G color) (Pixel_float.G scale))
    (quantize_channel brightnessNorm onOff (Pixel_byte.B color) (Pixel_float.B scale))
    (quantize_channel brightnessNorm onOff (Pixel_byte.W color) (Pixel_float.W scale)).

(** One channel of a scale buffer, as the list of its values along the strip. *)
Definition column (m : member) (scale : list Pixel_float.t) : list Q :=
  member_get m <$> scale.

(** A strip of [n] pixels with the given live colours, full brightness, fully
    on, all outputs dark and every scale entry [1.0]. *)
Definition strip (n : nat) (colorOne colorTwo : Pixel_float.t) : Vars.t :=
  Vars.mk (replicate n (Pixel_byte.mk 0 0 0 0)) (replicate n (Pixel_byte.mk 0 0 0 0))
          (replicate n (Pixel_float.mk 1 1 1 1))
          colorOne colorTwo 255 1 n
          (replicate 4 (Effect_Container.mk 1 1 1 0 1 false)).

(** A lit three-pixel strip whose scale buffer carries a wave on every
    channel. *)
Definition rippled3 : Vars.t :=
  Vars.set_Scale
    [Pixel_float.mk (9 # 10) (1 # 2) (3 # 4) (6 # 5);
     Pixel_float.mk (4 # 5) (1 # 3) (7 # 8) (11 # 10);
     Pixel_float.mk (7 # 10) (1 # 4) (5 # 8) (23 # 20)]
    (strip 3 (Pixel_float.mk 255 0 0 0) (Pixel_float.mk 0 0 255 0)).

(** A state that is out of its nominal ranges everywhere and switched off. *)
Definition overdriven3 : Vars.t :=
  Vars.mk (replicate 3 (Pixel_byte.mk 9 9 9 9))
          (replicate 3 (Pixel_byte.mk 255 200 100 50))
          (replicate 3 (Pixel_float.mk 7 (- (2)) (1 # 2) 1000))
          (Pixel_float.mk 255 0 0 0) (Pixel_float.mk 0 0 255 0) 300 0 3
          (replicate 4 (Effect_Container.mk 1 1 1 0 1 false)).

(** [n] effect ticks. *)
Definition Effect_ticks (c : Config.t) (n : nat) (vg : Vars.t * Rng.t) : Vars.t * Rng.t :=
  Nat.iter n (Effect c) vg.

(** A random source whose raw draws are all zero. *)
Definition rng_zero : Rng.t := Rng.mk 2147483647 (fun _ => 0%Z) 0.







(** The nominal ranges of the live values and of their staged targets, with
    strictly positive increments. *)
Definition color_in_range (p : Pixel_float.t) : Prop :=
  0 <= Pixel_float.R p <= 255 /\ 0 <= Pixel_float.G p <= 255 /\
  0 <= Pixel_float.B p <= 255 /\ 0 <= Pixel_float.W p <= 255.

Definition live_in_range (v : Vars.t) : Prop :=
  0 <= Vars.brightness v <= 255 /\ 0 <= Vars.onoffFactor v <= 1 /\
  color_in_range (Vars.colorOne v) /\ color_in_range (Vars.colorTwo v).

Definition staging_in_range (c : Config.t) : Prop :=
  0 <= Config.brightnessStaging c <= 255 /\ 0 <= Config.onoffStaging c <= 1 /\
  color_in_range (Config.colorOneStaging c) /\ color_in_range (Config.colorTwoStaging c) /\
  0 < Config.brightnessIncrement c /\ 0 < Config.onoffIncrement c /\
  0 < Config.colorIncrement c.

(** What [applyColor] stores for a source colour. *)
Definition to_byte_pixel (src : Pixel_float.t) : Pixel_byte.t :=
  Pixel_byte.mk (float_to_uint8 (Pixel_float.R src)) (float_to_uint8 (Pixel_float.G src))
                (float_to_uint8 (Pixel_float.B src)) (float_to_uint8 (Pixel_float.W src)).

(** The source colour [ComputeGradient] paints on pixel [i] of a strip of [n]
    pixels, mode by mode; [ComputeGradient_paints] shows that this is what the
    loops of [ComputeGradient] store. *)
Definition LINEAR_PADDING_w1 (c : Config.t) (n i : nat) : Q :=
  let padStart := constrain (Config.gradientPaddingBegin c) 0 (4 # 10) in
  let padValue := constrain (Config.gradientPaddingValue c) 0 1 in
  let startIdx := padStart * size_to_float (n - 1) in
  let endIdx := (1 - padStart) * size_to_float (n - 1) in
  let range := endIdx - startIdx in
  if Qle_bool (size_to_float i) startIdx then padValue
  else if Qle_bool endIdx (size_to_float i) || Qle_bool range 0 then 1 - padValue
  else padValue + (1 - 2 * padValue) * constrain ((size_to_float i - startIdx) / range) 0 1.

Definition LINEAR_PADDING_source (c : Config.t) (primaryColor secondaryColor : Pixel_float.t)
    (n i : nat) : Pixel_float.t :=
  if (n =? 1)%nat then blendColors primaryColor secondaryColor (1 # 2)
  else blendColors primaryColor secondaryColor (constrain (1 - LINEAR_PADDING_w1 c n i) 0 1).

(** The clamped sizes of the EDGE_CENTER zones and half the transition width,
    as [ComputeGradient] derives them from the configuration. *)
Definition EDGE_CENTER_edge (c : Config.t) : Q :=
  constrain (Config.gradientMiddleEdgeSize c) 0 (1 # 2).

Definition EDGE_CENTER_center (c : Config.t) : Q :=
  let centerSize := constrain (Config.gradientMiddleCenterSize c) 0 1 in
  let maxCenter := 1 - 2 * EDGE_CENTER_edge c in
  let centerSize := if Qltb maxCenter centerSize then maxCenter else centerSize in
  if Qltb centerSize 0 then 0 else centerSize.

Definition EDGE_CENTER_half (c : Config.t) : Q :=
  let transitionTotal := 1 - (2 * EDGE_CENTER_edge c + EDGE_CENTER_center c) in
  let transitionTotal := if Qltb transitionTotal 0 then 0 else transitionTotal in
  transitionTotal * (1 # 2).

(** The colour of the zone that position [x] falls into. *)
Definition EDGE_CENTER_zone (edgeSize centerSize halfTransition : Q) (mode : InterpolationMode)
    (primaryColor secondaryColor : Pixel_float.t) (x : Q) : Pixel_float.t :=
  let leftTransitionEnd := edgeSize + halfTransition in
  let centerEnd := leftTransitionEnd + centerSize in
  let rightTransitionEnd := centerEnd + halfTransition in
  if Qle_bool x edgeSize || Qle_bool halfTransition (1 # 1000000) then primaryColor
  else if Qltb x leftTransitionEnd && Qltb (1 # 1000000) halfTransition then
    blendColors primaryColor secondaryColor
      (ApplyInterpolation ((x - edgeSize) / halfTransition) mode)
  else if Qltb x centerEnd then secondaryColor
  else if Qltb x rightTransitionEnd && Qltb (1 # 1000000) halfTransition then
    blendColors secondaryColor primaryColor
      (ApplyInterpolation ((x - centerEnd) / halfTransition) mode)
  else primaryColor.

(** The normalised position of pixel [i] on a strip of [n] pixels. *)
Definition pixel_position (n i : nat) : Q :=
  if (n <=? 1)%nat then 0 else size_to_float i / size_to_float (n - 1).

Definition EDGE_CENTER_source (c : Config.t) (primaryColor secondaryColor : Pixel_float.t)
    (n i : nat) : Pixel_float.t :=
  EDGE_CENTER_zone (EDGE_CENTER_edge c) (EDGE_CENTER_center c) (EDGE_CENTER_half c)
    (Config.gradientInterpolationMode c) primaryColor secondaryColor (pixel_position n i).

Definition gradient_source (mode : GradientMode) (c : Config.t)
    (primaryColor secondaryColor : Pixel_float.t) (n i : nat) : Pixel_float.t :=
  match mode with
  | SINGLE_COLOR => primaryColor
  | MIDPOINT_SPLIT => if (i <? (n + 1) / 2)%nat then primaryColor else secondaryColor
  | LINEAR_PADDING => LINEAR_PADDING_source c primaryColor secondaryColor n i
  | EDGE_CENTER => EDGE_CENTER_source c primaryColor secondaryColor n i
  | LINEAR =>
      if (n <=? 1)%nat then primaryColor
      else blendColors primaryColor secondaryColor (size_to_float i / size_to_float (n - 1))
  end.

(** The two anchor colours as [ComputeGradient] selects them. *)
Definition primary_of (invertColors : bool) (v : Vars.t) : Pixel_float.t :=
  if invertColors then Vars.colorTwo v else Vars.colorOne v.

Definition secondary_of (invertColors : bool) (v : Vars.t) : Pixel_float.t :=
  if invertColors then Vars.colorOne v else Vars.colorTwo v.

(** The ten scalars the Fader moves: brightness, the on/off factor and the
    four channels of each of the two live colours. *)
Inductive scalar : Type :=
| s_brightness
| s_onoff
| s_colorOne (m : member)
| s_colorTwo (m : member).


Definition live_scalar (s : scalar) (v : Vars.t) : Q :=
  match s with
  | s_brightness => Vars.brightness v
  | s_onoff => Vars.onoffFactor v
  | s_colorOne m => member_get m (Vars.colorOne v)
  | s_colorTwo m => member_get m (Vars.colorTwo v)
  end.







(** A [millis()] reading, a [uint32_t]. *)
Definition is_uint32 (z : Z) : Prop := (0 <= z < 2 ^ 32)%Z.

(** The four channel arguments of a colour setter are bytes. *)
Definition byte_args (r g b w : Z) : Prop :=
  is_uint8 r /\ is_uint8 g /\ is_uint8 b /\ is_uint8 w.

(** What the render stage owns of [Vars] (the pixel buffers, the live
    values and the pixel count), and what the effect stage owns (the scale buffer and the four
    effect containers). *)
Definition same_render_state (a b : Vars.t) : Prop :=
  Vars.Pixels a = Vars.Pixels b /\ Vars.Colors a = Vars.Colors b /\
  Vars.colorOne a = Vars.colorOne b /\ Vars.colorTwo a = Vars.colorTwo b /\
  Vars.brightness a = Vars.brightness b /\ Vars.onoffFactor a = Vars.onoffFactor b /\
  Vars.Count a = Vars.Count b.

Definition same_effect_state (a b : Vars.t) : Prop :=
  Vars.Scale a = Vars.Scale b /\ Vars.Effect a = Vars.Effect b.

(** The frame of the effect stage: the render state is kept and the two
    buffers it writes keep their lengths. *)
Definition effect_frame (a b : Vars.t) : Prop :=
  same_render_state a b /\
  length (Vars.Scale a) = length (Vars.Scale b) /\
  length (Vars.Effect a) = length (Vars.Effect b).

(** The first [k] live pixels have scale 1.0 on the R channel. *)
Definition R_filled (k : nat) (v : Vars.t) : Prop :=
  forall j, (j < k)%nat -> (j < Vars.Count v)%nat -> Pixel_float.R (Vars.Scale v !!! j) == 1.

(** A list of bytes, and the plain sum of its elements. *)
Definition is_bytes (l : list Z) : Prop := Forall is_uint8 l.

Definition byte_sum (l : list Z) : Z := fold_right Z.add 0%Z l.

(** A string literal without an embedded terminator. *)
Definition no_NUL (s : list Z) : Prop := Forall (fun b => b <> 0%Z) s.

(** The blob layout of a saved object: version, payload, little-endian
    checksum. *)
Definition blob_of (version payload : list Z) (csum : Z) : list Z :=
  version ++ payload ++ [(csum mod 256)%Z; (csum / 256)%Z].

(** A character that is stored in the line buffer: a byte other than CR and
    LF. *)
Definition plain_char (c : Z) : Prop := is_uint8 c /\ c <> 10%Z /\ c <> 13%Z.


(** The mirror holds what [SanitizeMirror] lets through. *)
Definition mirror_sane (m : MAIN.Mirror) : Prop :=
  (0 <= MAIN.level m <= 100)%Z /\
  0 <= MAIN.hue1 m <= 360 /\ 0 <= MAIN.sat1 m <= 100 /\
  0 <= MAIN.hue2 m <= 360 /\ 0 <= MAIN.sat2 m <= 100.


(** * Properties *)

(** Case analysis on every [decide] of the goal, closing the arithmetic
    side conditions. *)
Ltac decide_cases :=
  repeat match goal with
         | |- context [decide ?P] => destruct (decide P)
         end;
  try reflexivity; try lia.

Lemma fold_left_invariant {S I : Type} (P : S -> Prop) (body : S -> I -> S) (l : list I) s :
  (forall a i, P a -> P (body a i)) -> P s -> P (fold_left body l s).
Proof.
  intros Hstep. revert s. induction l as [|i l IH]; intros s Hs; simpl; auto.
Qed.

(** ** Loops *)

Section Loops.
Context {S : Type}.
Implicit Types (body : nat -> S -> S) (s : S).

Lemma for_upto_S n body s :
  for_upto (Datatypes.S n) body s = body n (for_upto n body s).
Proof.
  unfold for_upto. rewrite seq_S, fold_left_app. reflexivity.
Qed.

Lemma for_downto_1_S n body s :
  for_downto_1 (Datatypes.S n) body s = for_downto_1 n body (body (Datatypes.S n) s).
Proof.
  unfold for_downto_1. rewrite seq_S, rev_app_distr. reflexivity.
Qed.

Lemma for_upto_ind (P : nat -> S -> Prop) n body s :
  P 0%nat s ->
  (forall i t, (i < n)%nat -> P i t -> P (Datatypes.S i) (body i t)) ->
  P n (for_upto n body s).
Proof.
  intros H0 Hstep. induction n as [|n IH].
  - exact H0.
  - rewrite for_upto_S. apply Hstep; [lia|]. apply IH.
    intros i t Hi. apply Hstep. lia.
Qed.
End Loops.

(** ** Scalar conversions *)

Lemma Qltb_lt x y : Qltb x y = true <-> x < y.
Proof.
  unfold Qltb. rewrite negb_true_iff, <- not_true_iff_false, Qle_bool_iff.
  split; [apply Qnot_le_lt | apply Qlt_not_le].
Qed.

Lemma Qltb_ge x y : Qltb x y = false <-> y <= x.
Proof.
  unfold Qltb. rewrite negb_false_iff, Qle_bool_iff. reflexivity.
Qed.


Lemma constrain_bounds amt low high :
  low <= high -> low <= constrain amt low high <= high.
Proof.
  intros Hlh. unfold constrain.
  destruct (Qltb amt low) eqn:E1; [lra|].
  destruct (Qltb high amt) eqn:E2; [lra|].
  apply Qltb_ge in E1, E2. lra.
Qed.

Lemma constrain_id amt low high :
  low <= amt -> amt <= high -> constrain amt low high = amt.
Proof.
  intros H1 H2. unfold constrain.
  destruct (Qltb amt low) eqn:E1; [apply Qltb_lt in E1; lra|].
  destruct (Qltb high amt) eqn:E2; [apply Qltb_lt in E2; lra|].
  reflexivity.
Qed.


Lemma to_uint8_range z : (0 <= to_uint8 z <= 255)%Z.
Proof. unfold to_uint8. pose proof (Z.mod_pos_bound z 256). lia. Qed.

Lemma clamp_byte_arg_id r : (0 <= r <= 255)%Z -> clamp_byte_arg r = r.
Proof.
  intros H. unfold clamp_byte_arg.
  destruct (Z.ltb_spec r 0); [lia|]. destruct (Z.ltb_spec 255 r); [lia|]. reflexivity.
Qed.


(** ** [SetPixelRGBW] *)

Lemma SetPixelRGBW_out_of_range index r g b w v :
  (Vars.Count v <= index)%nat -> SetPixelRGBW index r g b w v = (false, v).
Proof.
  intros H. unfold SetPixelRGBW.
  destruct (Nat.leb_spec (Vars.Count v) index); [reflexivity | lia].
Qed.

Lemma SetPixelRGBW_in_range index r g b w v :
  (index < Vars.Count v)%nat ->
  SetPixelRGBW index r g b w v =
  (true,
   Vars.set_Pixels
     (<[index := Pixel_byte.mk (clamp_byte_arg r) (clamp_byte_arg g)
                               (clamp_byte_arg b) (clamp_byte_arg w)]> (Vars.Pixels v)) v).
Proof.
  intros H. unfold SetPixelRGBW.
  destruct (Nat.leb_spec (Vars.Count v) index); [lia | reflexivity].
Qed.

(** C9. An index at or beyond [Count] makes [SetPixelRGBW] return [false]
    with the whole state unchanged.  An index below [Count] makes it return
    [true]; the addressed pixel then holds exactly the four given bytes, every
    other pixel is as before, and nothing but [Pixels] has changed. *)
Theorem SetPixelRGBW_contract (v : Vars.t) (index : nat) (r g b w : Z) :
  ((Vars.Count v <= index)%nat -> SetPixelRGBW index r g b w v = (false, v)) /\
  ((index < Vars.Count v)%nat ->
   (Vars.Count v <= length (Vars.Pixels v))%nat ->
   is_uint8 r -> is_uint8 g -> is_uint8 b -> is_uint8 w ->
   fst (SetPixelRGBW index r g b w v) = true /\
   Vars.Pixels (snd (SetPixelRGBW index r g b w v)) !! index
     = Some (Pixel_byte.mk r g b w) /\
   (forall j, j <> index ->
      Vars.Pixels (snd (SetPixelRGBW index r g b w v)) !! j = Vars.Pixels v !! j) /\
   length (Vars.Pixels (snd (SetPixelRGBW index r g b w v))) = length (Vars.Pixels v) /\
   snd (SetPixelRGBW index r g b w v)
     = Vars.set_Pixels (Vars.Pixels (snd (SetPixelRGBW index r g b w v))) v).
Proof.
  split.
  - apply SetPixelRGBW_out_of_range.
  - intros Hlt Hwf Hr Hg Hb Hw.
    rewrite SetPixelRGBW_in_range by exact Hlt. simpl.
    rewrite !clamp_byte_arg_id by assumption.
    repeat split.
    + apply list_lookup_insert_eq. lia.
    + intros j Hj. apply list_lookup_insert_ne. congruence.
    + apply length_insert.
Qed.

Lemma SetPixelRGBW_contract_witness :
  SetPixelRGBW 5 1 2 3 4 (strip 3 (Pixel_float.mk 255 0 0 0) (Pixel_float.mk 0 0 255 0))
    = (false, strip 3 (Pixel_float.mk 255 0 0 0) (Pixel_float.mk 0 0 255 0)) /\
  Vars.Pixels
    (snd (SetPixelRGBW 1 1 2 3 4
            (strip 3 (Pixel_float.mk 255 0 0 0) (Pixel_float.mk 0 0 255 0)))) !! 1%nat
    = Some (Pixel_byte.mk 1 2 3 4).
Proof.
  split.
  - apply (proj1 (SetPixelRGBW_contract _ 5%nat 1 2 3 4)). simpl. lia.
  - apply (proj2 (SetPixelRGBW_contract
                    (strip 3 (Pixel_float.mk 255 0 0 0) (Pixel_float.mk 0 0 255 0))
                    1%nat 1 2 3 4));
      unfold is_uint8; simpl; lia.
Defined.

(** ** [ShiftScaleChannel] *)

Lemma member_get_set_eq m x p : member_get m (member_set m x p) = x.
Proof. destruct m; reflexivity. Qed.

Lemma member_get_set_ne m m' x p :
  m' <> m -> member_get m' (member_set m x p) = member_get m' p.
Proof. destruct m, m'; intros H; try reflexivity; congruence. Qed.

Lemma assign_member_length m i x s : length (assign_member m i x s) = length s.
Proof. apply length_insert. Qed.

Lemma assign_member_total m i x (s : list Pixel_float.t) j :
  (i < length s)%nat ->
  assign_member m i x s !!! j =
  if decide (i = j) then member_set m x (s !!! j) else s !!! j.
Proof.
  intros Hi. unfold assign_member. rewrite list_lookup_total_insert.
  destruct (decide (i = j /\ (i < length s)%nat)) as [[-> _]|Hno];
    destruct (decide _) as [Heq|Hne]; try reflexivity; try congruence.
  exfalso. apply Hno. split; [exact Heq | exact Hi].
Qed.

Lemma fmap_total_ext {B : Type} (f : Pixel_float.t -> B) (l1 l2 : list Pixel_float.t) :
  length l1 = length l2 ->
  (forall j, (j < length l1)%nat -> f (l1 !!! j) = f (l2 !!! j)) ->
  f <$> l1 = f <$> l2.
Proof.
  intros Hlen Hpt. apply list_eq. intros j. rewrite !list_lookup_fmap.
  destruct (decide (j < length l1)%nat) as [Hj|Hj].
  - rewrite (list_lookup_lookup_total_lt l1), (list_lookup_lookup_total_lt l2) by lia.
    simpl. f_equal. apply Hpt. exact Hj.
  - rewrite (lookup_ge_None_2 l1), (lookup_ge_None_2 l2) by lia. reflexivity.
Qed.

Lemma assign_member_other m m' i x s :
  m' <> m -> member_get m' <$> assign_member m i x s = member_get m' <$> s.
Proof.
  intros Hm. apply fmap_total_ext.
  - apply assign_member_length.
  - intros j _. unfold assign_member. rewrite list_lookup_total_insert.
    destruct (decide _) as [[-> _]|_]; [|reflexivity].
    apply member_get_set_ne. exact Hm.
Qed.

(** The forward loop: slot [j] in [1..n] receives the channel of slot [j-1]
    as it was before the loop. *)
Lemma shift_forward_loop m n (s : list Pixel_float.t) :
  (n < length s)%nat ->
  length (for_downto_1 n
            (fun i scale =>
               assign_member m i (member_get m (scale !!! (i - 1)%nat)) scale) s)
    = length s /\
  forall j,
    for_downto_1 n
      (fun i scale => assign_member m i (member_get m (scale !!! (i - 1)%nat)) scale) s
      !!! j
    = if decide (1 <= j <= n)%nat
      then member_set m (member_get m (s !!! (j - 1)%nat)) (s !!! j)
      else s !!! j.
Proof.
  revert s. induction n as [|n IH]; intros s Hn.
  - split; [reflexivity|]. intros j. destruct (decide _); [lia | reflexivity].
  - rewrite for_downto_1_S.
    set (s1 := assign_member m (S n) (member_get m (s !!! (S n - 1)%nat)) s).
    assert (length s1 = length s) as Hl1 by apply assign_member_length.
    destruct (IH s1) as [Hlen Hpt]; [lia|].
    split; [lia|]. intros j. rewrite Hpt. unfold s1.
    rewrite !assign_member_total by lia.
    replace (S n - 1)%nat with n by lia.
    destruct (decide (S n = j)) as [<-|Hne]; decide_cases.
    replace (S n - 1)%nat with n by lia. reflexivity.
Qed.

(** The backward loop: slot [j] below [n] receives the channel of slot
    [j+1] as it was before the loop. *)
Lemma shift_backward_loop m n (s : list Pixel_float.t) :
  (n < length s)%nat ->
  length (for_upto n
            (fun i scale =>
               assign_member m i (member_get m (scale !!! (i + 1)%nat)) scale) s)
    = length s /\
  forall j,
    for_upto n
      (fun i scale => assign_member m i (member_get m (scale !!! (i + 1)%nat)) scale) s
      !!! j
    = if decide (j < n)%nat
      then member_set m (member_get m (s !!! (j + 1)%nat)) (s !!! j)
      else s !!! j.
Proof.
  induction n as [|n IH]; intros Hn.
  - split; [reflexivity|]. intros j. destruct (decide _); [lia | reflexivity].
  - rewrite for_upto_S. destruct IH as [Hlen Hpt]; [lia|].
    split; [rewrite assign_member_length; exact Hlen|].
    intros j. rewrite assign_member_total by lia. rewrite !Hpt.
    destruct (decide (n = j)) as [<-|Hne]; decide_cases.
Qed.

Lemma column_take_lookup m N (l : list Pixel_float.t) j :
  (N <= length l)%nat ->
  column m (take N l) !! j =
  if decide (j < N)%nat then Some (member_get m (l !!! j)) else None.
Proof.
  intros HN. unfold column. rewrite list_lookup_fmap, lookup_take.
  destruct (decide (j < N)%nat); [|reflexivity].
  rewrite (list_lookup_lookup_total_lt l) by lia. reflexivity.
Qed.

Lemma lookup_eq_of_total (l1 l2 : list Pixel_float.t) j :
  length l1 = length l2 -> l1 !!! j = l2 !!! j -> l1 !! j = l2 !! j.
Proof.
  intros Hlen Hj. destruct (decide (j < length l1)%nat).
  - rewrite (list_lookup_lookup_total_lt l1), (list_lookup_lookup_total_lt l2) by lia.
    f_equal. exact Hj.
  - rewrite (lookup_ge_None_2 l1), (lookup_ge_None_2 l2) by lia. reflexivity.
Qed.

(** Pointwise description of the two branches of [ShiftScaleChannel]. *)
Lemma shift_forward_total m x n (s : list Pixel_float.t) :
  (n < length s)%nat ->
  let s' :=
    assign_member m 0 x
      (for_downto_1 n
         (fun i scale => assign_member m i (member_get m (scale !!! (i - 1)%nat)) scale) s) in
  length s' = length s /\
  forall j,
    s' !!! j =
    if decide (j = 0)%nat then member_set m x (s !!! j)
    else if decide (j <= n)%nat
         then member_set m (member_get m (s !!! (j - 1)%nat)) (s !!! j)
         else s !!! j.
Proof.
  intros Hn s'. destruct (shift_forward_loop m n s Hn) as [Hlen Hpt].
  split; [unfold s'; rewrite assign_member_length; exact Hlen|].
  intros j. unfold s'. rewrite assign_member_total by lia. rewrite Hpt.
  destruct (decide (0 = j)%nat) as [<-|Hne]; decide_cases.
Qed.

Lemma shift_backward_total m x n (s : list Pixel_float.t) :
  (n < length s)%nat ->
  let s' :=
    assign_member m n x
      (for_upto n
         (fun i scale => assign_member m i (member_get m (scale !!! (i + 1)%nat)) scale) s) in
  length s' = length s /\
  forall j,
    s' !!! j =
    if decide (j < n)%nat then member_set m (member_get m (s !!! (j + 1)%nat)) (s !!! j)
    else if decide (j = n)%nat then member_set m x (s !!! j)
         else s !!! j.
Proof.
  intros Hn s'. destruct (shift_backward_loop m n s Hn) as [Hlen Hpt].
  split; [unfold s'; rewrite assign_member_length; exact Hlen|].
  intros j. unfold s'. rewrite assign_member_total by lia. rewrite Hpt.
  destruct (decide (n = j)%nat) as [<-|Hne]; decide_cases.
Qed.

(** Whatever the arguments, [ShiftScaleChannel] leaves the channels it does
    not select as they are, and changes nothing but [Scale]. *)
Lemma ShiftScaleChannel_other_columns x channel forward v m' :
  m' <> channel_member channel ->
  column m' (Vars.Scale (ShiftScaleChannel x channel forward v)) = column m' (Vars.Scale v).
Proof.
  intros Hm. unfold ShiftScaleChannel.
  destruct (Vars.Count v =? 0)%nat; [reflexivity|].
  destruct ((channel <? 0)%Z || (3 <? channel)%Z); [reflexivity|].
  unfold column, for_downto_1, for_upto.
  destruct forward; simpl; rewrite assign_member_other by exact Hm;
    apply (fold_left_invariant
             (fun s => member_get m' <$> s = member_get m' <$> Vars.Scale v));
    try reflexivity;
    intros a i Ha; rewrite assign_member_other by exact Hm; exact Ha.
Qed.

Lemma ShiftScaleChannel_only_Scale x channel forward v :
  ShiftScaleChannel x channel forward v
  = Vars.set_Scale (Vars.Scale (ShiftScaleChannel x channel forward v)) v.
Proof.
  unfold ShiftScaleChannel.
  destruct (Vars.Count v =? 0)%nat; [destruct v; reflexivity|].
  destruct ((channel <? 0)%Z || (3 <? channel)%Z); [destruct v; reflexivity|].
  destruct forward; reflexivity.
Qed.

(** C6. On a strip of at least one pixel and for a channel index in [0..3],
    one [ShiftScaleChannel] call turns the selected channel of the live part
    of [Scale] into the previous one shifted by one slot, toward higher
    indices when [forward] (the new value enters at slot 0 and the last value
    leaves) and toward lower indices otherwise (the new value enters at the
    last slot and the first value leaves); the order of the values that stay
    is kept.  The other three channels, the slots beyond the live part and
    everything outside [Scale] are unchanged. *)
Theorem ShiftScaleChannel_shift (v : Vars.t) (newValue : Q) (channel : Z) (forward : bool) :
  (1 <= Vars.Count v <= length (Vars.Scale v))%nat ->
  (0 <= channel <= 3)%Z ->
  column (channel_member channel)
    (take (Vars.Count v) (Vars.Scale (ShiftScaleChannel newValue channel forward v)))
  = (if forward
     then newValue
          :: column (channel_member channel) (take (Vars.Count v - 1) (Vars.Scale v))
     else column (channel_member channel) (drop 1 (take (Vars.Count v) (Vars.Scale v)))
          ++ [newValue]) /\
  (forall m', m' <> channel_member channel ->
     column m' (Vars.Scale (ShiftScaleChannel newValue channel forward v))
     = column m' (Vars.Scale v)) /\
  drop (Vars.Count v) (Vars.Scale (ShiftScaleChannel newValue channel forward v))
  = drop (Vars.Count v) (Vars.Scale v) /\
  ShiftScaleChannel newValue channel forward v
  = Vars.set_Scale (Vars.Scale (ShiftScaleChannel newValue channel forward v)) v.
Proof.
  intros [HN1 HN2] Hch.
  split; [|split; [|split]].
  2: { intros m' Hm. apply ShiftScaleChannel_other_columns. exact Hm. }
  3: { apply ShiftScaleChannel_only_Scale. }
  all: unfold ShiftScaleChannel.
  all: destruct (Nat.eqb_spec (Vars.Count v) 0); [lia|].
  all: destruct (Z.ltb_spec channel 0); [lia|].
  all: destruct (Z.ltb_spec 3 channel); [lia|].
  all: cbv [orb]; set (m := channel_member channel); set (s := Vars.Scale v) in *.
  all: set (N := Vars.Count v) in *.
  - destruct forward; cbv [Vars.Scale Vars.set_Scale].
    + destruct (shift_forward_total m newValue (N - 1) s) as [Hlen Hpt]; [lia|].
      cbv zeta in Hlen, Hpt. apply list_eq. intros j.
      rewrite column_take_lookup by lia. rewrite Hpt.
      destruct j as [|j]; simpl.
      * destruct (decide (0 < N)%nat); [|lia]. rewrite member_get_set_eq. reflexivity.
      * rewrite column_take_lookup by lia.
        destruct (decide (S j < N)%nat), (decide (j < N - 1)%nat); try reflexivity; try lia.
        destruct (decide (S j <= N - 1)%nat); [|lia].
        rewrite member_get_set_eq. replace (j - 0)%nat with j by lia. reflexivity.
    + destruct (shift_backward_total m newValue (N - 1) s) as [Hlen Hpt]; [lia|].
      cbv zeta in Hlen, Hpt. apply list_eq. intros j.
      rewrite column_take_lookup by lia. rewrite Hpt.
      assert (length (column m (drop 1 (take N s))) = (N - 1)%nat) as Hcol.
      { unfold column. rewrite length_fmap, length_drop, length_take. lia. }
      destruct (decide (j < N - 1)%nat) as [Hj|Hj].
      * destruct (decide (j < N)%nat); [|lia].
        rewrite lookup_app_l by lia.
        unfold column. rewrite list_lookup_fmap, lookup_drop, lookup_take_lt by lia.
        rewrite (list_lookup_lookup_total_lt s) by lia. simpl.
        rewrite member_get_set_eq. replace (j + 1)%nat with (1 + j)%nat by lia. reflexivity.
      * rewrite lookup_app_r by lia. rewrite Hcol.
        destruct (decide (j = N - 1)%nat) as [->|Hne].
        -- destruct (decide (N - 1 < N)%nat); [|lia].
           replace (N - 1 - (N - 1))%nat with 0%nat by lia. simpl.
           rewrite member_get_set_eq. reflexivity.
        -- destruct (decide (j < N)%nat); [lia|].
           destruct (j - (N - 1))%nat eqn:E; [lia|]. reflexivity.
  - destruct forward; cbv [Vars.Scale Vars.set_Scale].
    + destruct (shift_forward_total m newValue (N - 1) s) as [Hlen Hpt]; [lia|].
      cbv zeta in Hlen, Hpt. apply list_eq. intros j. rewrite !lookup_drop.
      apply lookup_eq_of_total; [exact Hlen|]. rewrite Hpt. decide_cases.
    + destruct (shift_backward_total m newValue (N - 1) s) as [Hlen Hpt]; [lia|].
      cbv zeta in Hlen, Hpt. apply list_eq. intros j. rewrite !lookup_drop.
      apply lookup_eq_of_total; [exact Hlen|]. rewrite Hpt. decide_cases.
Qed.

Lemma ShiftScaleChannel_shift_witness :
  column member_G (take 3 (Vars.Scale (ShiftScaleChannel (7 # 10) 1 false rippled3)))
  = [1 # 3; 1 # 4; 7 # 10].
Proof.
  destruct (ShiftScaleChannel_shift rippled3 (7 # 10) 1 false) as [H _];
    [simpl; lia | lia | exact H].
Defined.

(** ** [Effect] with the animation switched off *)

Lemma Effect_inactive_eq c v g :
  Config.effectActive c = false ->
  Effect c (v, g) = (for_upto 4 (fun _ v => ShiftScaleChannel 1 0 true v) v, g).
Proof. intros H. unfold Effect. rewrite H. reflexivity. Qed.

Lemma Effect_inactive_tick c v g m' :
  Config.effectActive c = false ->
  m' <> member_R ->
  column m' (Vars.Scale (fst (Effect c (v, g)))) = column m' (Vars.Scale v).
Proof.
  intros Hoff Hm. rewrite Effect_inactive_eq by exact Hoff. simpl.
  unfold for_upto.
  apply (fold_left_invariant (fun a => column m' (Vars.Scale a) = column m' (Vars.Scale v)));
    [|reflexivity].
  intros a _ Ha. rewrite ShiftScaleChannel_other_columns; [exact Ha | exact Hm].
Qed.

(** C2, what the code does.  While [effectActive] is false, all four shifts of
    a tick go to channel 0: the G, B and W channels of [Scale] are never
    written, so after any number of ticks they still hold what they held
    before.  They equal 1.0 only if they already did. *)
Theorem Effect_inactive_drives_only_R (c : Config.t) (v : Vars.t) (g : Rng.t) (n : nat) :
  Config.effectActive c = false ->
  column member_G (Vars.Scale (fst (Effect_ticks c n (v, g)))) = column member_G (Vars.Scale v) /\
  column member_B (Vars.Scale (fst (Effect_ticks c n (v, g)))) = column member_B (Vars.Scale v) /\
  column member_W (Vars.Scale (fst (Effect_ticks c n (v, g)))) = column member_W (Vars.Scale v).
Proof.
  intros Hoff. unfold Effect_ticks. induction n as [|n IH]; [repeat split|].
  simpl. destruct (Nat.iter n (Effect c) (v, g)) as [vn gn]. simpl in IH.
  destruct IH as (HG & HB & HW).
  rewrite !Effect_inactive_tick by (exact Hoff || discriminate).
  repeat split; assumption.
Qed.

Lemma Effect_inactive_drives_only_R_witness :
  column member_G
    (Vars.Scale
       (fst (Effect_ticks (Config.set_effectActive false (Config.default 3)) 3
               (rippled3, rng_zero))))
  = [1 # 2; 1 # 3; 1 # 4].
Proof.
  apply (Effect_inactive_drives_only_R
           (Config.set_effectActive false (Config.default 3)) rippled3 rng_zero 3).
  reflexivity.
Defined.

(** C2 at the failing input: three ticks with the effect switched off on a
    three-pixel strip fill the R channel with 1.0 and leave the wave on G, B
    and W in place. *)
Example Effect_inactive_failing_input :
  Vars.Scale
    (fst (Effect_ticks (Config.set_effectActive false (Config.default 3)) 3
            (rippled3, rng_zero)))
  = [Pixel_float.mk 1 (1 # 2) (3 # 4) (6 # 5);
     Pixel_float.mk 1 (1 # 3) (7 # 8) (11 # 10);
     Pixel_float.mk 1 (1 # 4) (5 # 8) (23 # 20)].
Proof. reflexivity. Qed.

(** ** The evolve phase of [Effect] *)











(** ** The Fader *)

















(** C10. With a zero or negative step, [StepTowards] returns the target at
    once, whatever the current value. *)
Theorem StepTowards_nonpositive_step (current target step : Q) :
  step <= 0 -> StepTowards current target step = target.
Proof.
  intros H. unfold StepTowards.
  apply Qle_bool_iff in H. rewrite H. reflexivity.
Qed.

Lemma StepTowards_nonpositive_step_witness :
  StepTowards 10 200 0 = 200 /\ StepTowards 10 200 (- (3 # 2)) = 200.
Proof.
  split; apply StepTowards_nonpositive_step; unfold Qle; simpl; lia.
Defined.



(** ** [ApplyOutputScaling] *)

Lemma ApplyOutputScaling_pixel_eq bn onOff i v :
  (i < Vars.Count v)%nat ->
  ApplyOutputScaling_pixel bn onOff i v =
  Vars.set_Pixels
    (<[i := quantize_pixel bn onOff (Vars.Colors v !!! i) (Vars.Scale v !!! i)]>
       (Vars.Pixels v)) v.
Proof.
  intros H. unfold ApplyOutputScaling_pixel.
  rewrite SetPixelRGBW_in_range by exact H. reflexivity.
Qed.

(** The loop invariant: after [k] iterations the first [k] pixels hold the
    quantized values, the others are untouched, and only [Pixels] differs. *)
Lemma ApplyOutputScaling_loop bn onOff v k :
  (k <= Vars.Count v)%nat ->
  exists px,
    for_upto k (ApplyOutputScaling_pixel bn onOff) v = Vars.set_Pixels px v /\
    length px = length (Vars.Pixels v) /\
    forall j,
      px !! j =
      if decide (j < k)%nat
      then (fun _ => quantize_pixel bn onOff (Vars.Colors v !!! j) (Vars.Scale v !!! j))
             <$> Vars.Pixels v !! j
      else Vars.Pixels v !! j.
Proof.
  induction k as [|k IH]; intros Hk.
  - exists (Vars.Pixels v). split; [destruct v; reflexivity|]. split; [reflexivity|].
    intros j. destruct (decide (j < 0)%nat); [lia | reflexivity].
  - destruct IH as (px & Hrun & Hlen & Hlook); [lia|].
    rewrite for_upto_S, Hrun.
    rewrite ApplyOutputScaling_pixel_eq by (simpl; lia). simpl.
    eexists. split; [reflexivity|]. split; [rewrite length_insert; exact Hlen|].
    intros j. rewrite list_lookup_insert, Hlen, Hlook.
    destruct (decide (k = j /\ (k < length (Vars.Pixels v))%nat)) as [[-> Hin]|Hno].
    + destruct (decide (j < Datatypes.S j)%nat); [|lia].
      destruct (lookup_lt_is_Some_2 _ _ Hin) as [p ->]. reflexivity.
    + destruct (decide (j < k)%nat), (decide (j < Datatypes.S k)%nat);
        try reflexivity; try lia.
      assert (j = k) as -> by lia.
      rewrite lookup_ge_None_2 by lia. reflexivity.
Qed.

Lemma ApplyOutputScaling_spec v :
  exists px,
    ApplyOutputScaling v = Vars.set_Pixels px v /\
    length px = length (Vars.Pixels v) /\
    forall j,
      px !! j =
      if decide (j < Vars.Count v)%nat
      then (fun _ => quantize_pixel (constrain (Vars.brightness v) 0 255 / 255)
                       (Vars.onoffFactor v) (Vars.Colors v !!! j) (Vars.Scale v !!! j))
             <$> Vars.Pixels v !! j
      else Vars.Pixels v !! j.
Proof. unfold ApplyOutputScaling. apply ApplyOutputScaling_loop. lia. Qed.



(** C8. [ApplyOutputScaling] writes the [Pixels] buffer only: [Colors],
    [Scale], the live colours, brightness, on/off factor, the count and the
    effect channels are as before, and the buffer keeps its length.  What it
    writes is a function of [Colors], [Scale], brightness and on/off factor:
    two states that agree on these (and on the count and the buffer length)
    end with the same [Pixels] on the live range. *)
Theorem ApplyOutputScaling_frame (v : Vars.t) :
  (Vars.Colors (ApplyOutputScaling v) = Vars.Colors v /\
   Vars.Scale (ApplyOutputScaling v) = Vars.Scale v /\
   Vars.colorOne (ApplyOutputScaling v) = Vars.colorOne v /\
   Vars.colorTwo (ApplyOutputScaling v) = Vars.colorTwo v /\
   Vars.brightness (ApplyOutputScaling v) = Vars.brightness v /\
   Vars.onoffFactor (ApplyOutputScaling v) = Vars.onoffFactor v /\
   Vars.Count (ApplyOutputScaling v) = Vars.Count v /\
   Vars.Effect (ApplyOutputScaling v) = Vars.Effect v /\
   length (Vars.Pixels (ApplyOutputScaling v)) = length (Vars.Pixels v)) /\
  (forall v2 : Vars.t,
     Vars.Colors v2 = Vars.Colors v ->
     Vars.Scale v2 = Vars.Scale v ->
     Vars.brightness v2 = Vars.brightness v ->
     Vars.onoffFactor v2 = Vars.onoffFactor v ->
     Vars.Count v2 = Vars.Count v ->
     length (Vars.Pixels v2) = length (Vars.Pixels v) ->
     take (Vars.Count v) (Vars.Pixels (ApplyOutputScaling v2))
       = take (Vars.Count v) (Vars.Pixels (ApplyOutputScaling v))).
Proof.
  destruct (ApplyOutputScaling_spec v) as (px & Hrun & Hlen & Hlook).
  split.
  - rewrite Hrun. simpl. repeat split; try reflexivity. exact Hlen.
  - intros v2 HC HS HB HO HN HL.
    destruct (ApplyOutputScaling_spec v2) as (px2 & Hrun2 & Hlen2 & Hlook2).
    rewrite Hrun, Hrun2. simpl. apply list_eq. intros j.
    rewrite !lookup_take. rewrite Hlook, Hlook2, HC, HS, HB, HO, HN.
    destruct (decide (j < Vars.Count v)%nat); [|reflexivity].
    destruct (Vars.Pixels v !! j) as [p|] eqn:E.
    + assert (j < length (Vars.Pixels v2))%nat as Hj
        by (rewrite HL; eapply lookup_lt_Some; exact E).
      destruct (lookup_lt_is_Some_2 _ _ Hj) as [p2 ->]. reflexivity.
    + apply lookup_ge_None_1 in E.
      rewrite (lookup_ge_None_2 (Vars.Pixels v2)) by lia. reflexivity.
Qed.

Lemma ApplyOutputScaling_frame_witness :
  take 3 (Vars.Pixels
            (ApplyOutputScaling
               (Vars.set_Pixels (replicate 3 (Pixel_byte.mk 9 9 9 9))
                  (Vars.set_colorOne (Pixel_float.mk 1 2 3 4)
                     (strip 3 (Pixel_float.mk 255 0 0 0) (Pixel_float.mk 0 0 255 0))))))
  = take 3 (Vars.Pixels
              (ApplyOutputScaling
                 (strip 3 (Pixel_float.mk 255 0 0 0) (Pixel_float.mk 0 0 255 0)))).
Proof.
  apply (proj2 (ApplyOutputScaling_frame
                  (strip 3 (Pixel_float.mk 255 0 0 0) (Pixel_float.mk 0 0 255 0))));
    reflexivity.
Defined.



(** The same strip switched on at twice the nominal on/off factor: the bytes
    wrap around instead of saturating, and still lie in [0, 255]. *)
Example ApplyOutputScaling_overdriven_on :
  Vars.Pixels (ApplyOutputScaling (Vars.set_onoffFactor 2 overdriven3)) !! 1%nat
  = Some (Pixel_byte.mk 254 0 100 254).
Proof. reflexivity. Qed.

(** ** The end-to-end scenario on three pixels *)

(** C1, as the code has it.  On a three-pixel strip in LINEAR mode with
    colorOne = (255,0,0,0), colorTwo = (0,0,255,0), no inversion, brightness
    255, on/off factor 1 and every scale entry 1.0, the gradient synthesizer
    followed by the output quantizer yields
    [(255,0,0,0); (127,0,127,0); (0,0,255,0)]: the middle pixel is the lerp at
    t = 0.5, which is 127.5 on R and B, truncated to 127 when [applyColor]
    stores it in [Colors]; the quantizer then has nothing left to round. *)
Theorem linear_gradient_three_pixels
    (c : Config.t) (pixels colors : list Pixel_byte.t) (effect : list Effect_Container.t) :
  length pixels = 3%nat ->
  length colors = 3%nat ->
  Pixel_float.R (blendColors (Pixel_float.mk 255 0 0 0) (Pixel_float.mk 0 0 255 0) (1 # 2))
    == 255 # 2 /\
  Vars.Colors
    (ComputeGradient LINEAR false c
       (Vars.mk pixels colors (replicate 3 (Pixel_float.mk 1 1 1 1))
          (Pixel_float.mk 255 0 0 0) (Pixel_float.mk 0 0 255 0) 255 1 3 effect))
  = [Pixel_byte.mk 255 0 0 0; Pixel_byte.mk 127 0 127 0; Pixel_byte.mk 0 0 255 0] /\
  Vars.Pixels
    (ApplyOutputScaling
       (ComputeGradient LINEAR false c
          (Vars.mk pixels colors (replicate 3 (Pixel_float.mk 1 1 1 1))
             (Pixel_float.mk 255 0 0 0) (Pixel_float.mk 0 0 255 0) 255 1 3 effect)))
  = [Pixel_byte.mk 255 0 0 0; Pixel_byte.mk 127 0 127 0; Pixel_byte.mk 0 0 255 0].
Proof.
  intros Hp Hc.
  destruct pixels as [|p0 [|p1 [|p2 [|? ?]]]]; try discriminate Hp.
  destruct colors as [|c0 [|c1 [|c2 [|? ?]]]]; try discriminate Hc.
  split; [reflexivity|]. split; vm_compute; reflexivity.
Qed.

Lemma linear_gradient_three_pixels_witness :
  Vars.Pixels
    (ApplyOutputScaling
       (ComputeGradient LINEAR false (Config.default 3)
          (strip 3 (Pixel_float.mk 255 0 0 0) (Pixel_float.mk 0 0 255 0))))
  = [Pixel_byte.mk 255 0 0 0; Pixel_byte.mk 127 0 127 0; Pixel_byte.mk 0 0 255 0].
Proof.
  apply (linear_gradient_three_pixels (Config.default 3)
           (replicate 3 (Pixel_byte.mk 0 0 0 0)) (replicate 3 (Pixel_byte.mk 0 0 0 0))
           (replicate 4 (Effect_Container.mk 1 1 1 0 1 false)));
    reflexivity.
Defined.

(** C1 as claimed fails: the middle pixel is not (128,0,128,0). *)
Lemma linear_gradient_three_pixels_counterexample :
  Vars.Pixels
    (ApplyOutputScaling
       (ComputeGradient LINEAR false (Config.default 3)
          (strip 3 (Pixel_float.mk 255 0 0 0) (Pixel_float.mk 0 0 255 0))))
  <> [Pixel_byte.mk 255 0 0 0; Pixel_byte.mk 128 0 128 0; Pixel_byte.mk 0 0 255 0].
Proof. vm_compute. discriminate. Qed.

(** ** The EDGE_CENTER sanitizer *)




(** * Further properties of the pipeline *)

(** ** [ComputeGradient]: what every mode paints *)

Lemma for_upto_ext {S : Type} n (body1 body2 : nat -> S -> S) s :
  (forall i t, (i < n)%nat -> body1 i t = body2 i t) ->
  for_upto n body1 s = for_upto n body2 s.
Proof.
  intros H. induction n as [|n IH]; [reflexivity|].
  rewrite !for_upto_S, IH by (intros; apply H; lia). apply H. lia.
Qed.

Lemma set_Colors_id v : Vars.set_Colors (Vars.Colors v) v = v.
Proof. destruct v; reflexivity. Qed.

(** A loop that paints pixel [i] with [f i] at iteration [i]. *)
Lemma paint_loop (f : nat -> Pixel_float.t) v k :
  exists cs,
    for_upto k (fun i v => applyColor i (f i) v) v = Vars.set_Colors cs v /\
    length cs = length (Vars.Colors v) /\
    forall j,
      cs !! j =
      if decide (j < k)%nat
      then (fun _ => to_byte_pixel (f j)) <$> Vars.Colors v !! j
      else Vars.Colors v !! j.
Proof.
  induction k as [|k (cs & Hrun & Hlen & Hlook)].
  - exists (Vars.Colors v). split; [symmetry; apply set_Colors_id|]. split; [reflexivity|].
    intros j. decide_cases.
  - rewrite for_upto_S, Hrun.
    exists (<[k := to_byte_pixel (f k)]> cs). split; [reflexivity|].
    split; [rewrite length_insert; exact Hlen|].
    intros j. rewrite list_lookup_insert, Hlen, Hlook.
    destruct (decide (k = j /\ (k < length (Vars.Colors v))%nat)) as [[-> Hin]|Hno].
    + destruct (lookup_lt_is_Some_2 _ _ Hin) as [p ->]. decide_cases.
    + destruct (decide (j < k)%nat), (decide (j < S k)%nat); try reflexivity; try lia.
      assert (j = k) as -> by lia.
      rewrite lookup_ge_None_2 by lia. reflexivity.
Qed.

Lemma ComputeGradient_loops mode invertColors c v :
  ComputeGradient mode invertColors c v =
  for_upto (Vars.Count v)
    (fun i v' =>
       applyColor i
         (gradient_source mode c (primary_of invertColors v) (secondary_of invertColors v)
            (Vars.Count v) i) v') v.
Proof.
  unfold ComputeGradient, primary_of, secondary_of.
  destruct (Nat.eqb_spec (Vars.Count v) 0) as [H0|H0]; [rewrite H0; reflexivity|].
  set (p := if invertColors then Vars.colorTwo v else Vars.colorOne v).
  set (q := if invertColors then Vars.colorOne v else Vars.colorTwo v).
  assert (forall (g : nat -> Vars.t -> Vars.t) (f : nat -> Pixel_float.t) k,
             (forall i cs, g i (Vars.set_Colors cs v) = applyColor i (f i) (Vars.set_Colors cs v)) ->
             for_upto k g v = for_upto k (fun i v' => applyColor i (f i) v') v) as Hloop.
  { intros g f k Hg. induction k as [|k IH]; [reflexivity|].
    rewrite !for_upto_S, IH.
    destruct (paint_loop f v k) as (cs & -> & _). apply Hg. }
  destruct mode; cbn [gradient_source].
  - (* LINEAR *)
    destruct (Vars.Count v <=? 1)%nat eqn:E; [reflexivity|].
    apply Hloop. intros i cs. reflexivity.
  - (* LINEAR_PADDING *)
    unfold ComputeGradient_LINEAR_PADDING, LINEAR_PADDING_source, LINEAR_PADDING_w1.
    destruct (Nat.eqb_spec (Vars.Count v) 0) as [H0'|_]; [lia|].
    destruct (Nat.eqb_spec (Vars.Count v) 1) as [H1|H1].
    + rewrite H1. reflexivity.
    + apply Hloop. intros i cs. cbn [Vars.Count Vars.set_Colors]. reflexivity.
  - reflexivity.
  - reflexivity.
  - (* EDGE_CENTER *)
    unfold ComputeGradient_EDGE_CENTER, EDGE_CENTER_source, EDGE_CENTER_zone,
      EDGE_CENTER_half, EDGE_CENTER_center, EDGE_CENTER_edge, pixel_position. cbv zeta.
    apply Hloop. intros i cs.
    repeat match goal with
           | |- (if ?b then _ else _) = _ => destruct b; [reflexivity|]
           end.
    reflexivity.
Qed.

Lemma ComputeGradient_paints mode invertColors c v :
  exists cs,
    ComputeGradient mode invertColors c v = Vars.set_Colors cs v /\
    length cs = length (Vars.Colors v) /\
    forall j,
      cs !! j =
      if decide (j < Vars.Count v)%nat
      then (fun _ => to_byte_pixel
                       (gradient_source mode c (primary_of invertColors v)
                          (secondary_of invertColors v) (Vars.Count v) j))
             <$> Vars.Colors v !! j
      else Vars.Colors v !! j.
Proof. rewrite ComputeGradient_loops. apply paint_loop. Qed.

Lemma ComputeGradient_pixel mode invertColors c v j :
  (j < Vars.Count v)%nat -> (Vars.Count v <= length (Vars.Colors v))%nat ->
  Vars.Colors (ComputeGradient mode invertColors c v) !! j
  = Some (to_byte_pixel
            (gradient_source mode c (primary_of invertColors v)
               (secondary_of invertColors v) (Vars.Count v) j)).
Proof.
  intros Hj Hwf. destruct (ComputeGradient_paints mode invertColors c v) as (cs & -> & _ & Hlook).
  cbn [Vars.Colors Vars.set_Colors]. rewrite Hlook.
  destruct (decide (j < Vars.Count v)%nat); [|lia].
  destruct (lookup_lt_is_Some_2 (Vars.Colors v) j) as [p ->]; [lia | reflexivity].
Qed.



Lemma to_byte_pixel_bytes p : byte_pixel (to_byte_pixel p).
Proof. unfold byte_pixel, to_byte_pixel; simpl. repeat split; apply to_uint8_range. Qed.




(** X1. [ComputeGradient] writes the [Colors] buffer only, in every mode: the
    rest of the state is unchanged, the buffer keeps its length, the entries
    beyond the live range are untouched, and every live entry it holds is a
    pixel of four bytes whatever the live colours were. *)
Theorem ComputeGradient_frame (mode : GradientMode) (invertColors : bool)
    (c : Config.t) (v : Vars.t) :
  ComputeGradient mode invertColors c v
  = Vars.set_Colors (Vars.Colors (ComputeGradient mode invertColors c v)) v /\
  length (Vars.Colors (ComputeGradient mode invertColors c v)) = length (Vars.Colors v) /\
  drop (Vars.Count v) (Vars.Colors (ComputeGradient mode invertColors c v))
  = drop (Vars.Count v) (Vars.Colors v) /\
  (forall j p, (j < Vars.Count v)%nat ->
     Vars.Colors (ComputeGradient mode invertColors c v) !! j = Some p -> byte_pixel p).
Proof.
  destruct (ComputeGradient_paints mode invertColors c v) as (cs & -> & Hlen & Hlook).
  cbn [Vars.Colors Vars.set_Colors].
  split; [reflexivity|]. split; [exact Hlen|]. split.
  - apply list_eq. intros j. rewrite !lookup_drop, Hlook. decide_cases.
  - intros j p Hj. rewrite Hlook. destruct (decide (j < Vars.Count v)%nat); [|lia].
    destruct (Vars.Colors v !! j); [|discriminate].
    cbn. intros [= <-]. apply to_byte_pixel_bytes.
Qed.

(** X2. The two modes without blending.  SINGLE_COLOR paints every live pixel
    with the primary colour (colorTwo when inverted, else colorOne), truncated
    to bytes.  MIDPOINT_SPLIT paints pixel [j] with the primary colour when
    [2 * j < Count] and with the secondary colour otherwise: on an odd strip
    the middle pixel belongs to the primary half. *)
Theorem ComputeGradient_unblended (invertColors : bool) (c : Config.t) (v : Vars.t) (j : nat) :
  (j < Vars.Count v)%nat ->
  (Vars.Count v <= length (Vars.Colors v))%nat ->
  Vars.Colors (ComputeGradient SINGLE_COLOR invertColors c v) !! j
  = Some (to_byte_pixel (primary_of invertColors v)) /\
  Vars.Colors (ComputeGradient MIDPOINT_SPLIT invertColors c v) !! j
  = Some (to_byte_pixel
            (if decide (2 * j < Vars.Count v)%nat
             then primary_of invertColors v else secondary_of invertColors v)).
Proof.
  intros Hj Hwf. rewrite !ComputeGradient_pixel by assumption. cbn [gradient_source].
  split; [reflexivity|]. f_equal. f_equal.
  destruct (Nat.ltb_spec j ((Vars.Count v + 1) / 2)) as [H|H];
    destruct (decide (2 * j < Vars.Count v)%nat) as [H'|H']; try reflexivity; exfalso.
  - pose proof (Nat.div_mod_eq (Vars.Count v + 1) 2).
    pose proof (Nat.mod_upper_bound (Vars.Count v + 1) 2). lia.
  - pose proof (Nat.div_mod_eq (Vars.Count v + 1) 2).
    pose proof (Nat.mod_upper_bound (Vars.Count v + 1) 2). lia.
Qed.

Lemma ComputeGradient_unblended_witness :
  Vars.Colors (ComputeGradient MIDPOINT_SPLIT true (Config.default 3)
                 (strip 3 (Pixel_float.mk 255 0 0 0) (Pixel_float.mk 0 0 255 0))) !! 1%nat
  = Some (Pixel_byte.mk 0 0 255 0).
Proof.
  destruct (ComputeGradient_unblended true (Config.default 3)
              (strip 3 (Pixel_float.mk 255 0 0 0) (Pixel_float.mk 0 0 255 0)) 1) as [_ H];
    [simpl; lia | simpl; lia | exact H].
Defined.




(** ** [ComputeGradient]: inversion and symmetry *)













(** ** [ComputeGradient]: the zones of EDGE_CENTER *)





Lemma Qle_bool_wd_l x y z : x == y -> Qle_bool x z = Qle_bool y z.
Proof. intros H. apply eq_true_iff_eq. rewrite !Qle_bool_iff, H. reflexivity. Qed.

Lemma Qltb_wd_l x y z : x == y -> Qltb x z = Qltb y z.
Proof. intros H. apply eq_true_iff_eq. rewrite !Qltb_lt, H. reflexivity. Qed.










(** ** [Fade] on the whole state *)














(** ** [Clear] and the utilities of the core *)





Lemma float_to_Z_mono x y : x <= y -> (float_to_Z x <= float_to_Z y)%Z.
Proof.
  destruct x as [a b], y as [c d]. unfold Qle, float_to_Z. simpl. intros H.
  rewrite <- (Z.quot_mul_cancel_r a (Z.pos b) (Z.pos d)) by lia.
  rewrite <- (Z.quot_mul_cancel_r c (Z.pos d) (Z.pos b)) by lia.
  replace (Z.pos d * Z.pos b)%Z with (Z.pos b * Z.pos d)%Z by lia.
  apply Z.quot_le_mono; lia.
Qed.

Lemma to_int_small z : (0 <= z <= 255)%Z -> to_int z = z.
Proof.
  intros H. unfold to_int. change (2 ^ 31)%Z with 2147483648%Z.
  change (2 ^ 32)%Z with 4294967296%Z. rewrite Z.mod_small; lia.
Qed.

(** The value [MapCubic100to255] converts for an argument strictly inside
    (0, 100). *)
Lemma MapCubic_inner x :
  (0 < x < 100)%Z ->
  MapCubic100to255 x
  = float_to_Z (inject_Z x / 100 * (inject_Z x / 100) * (inject_Z x / 100) * 255 + (1 # 2)) /\
  (0 <= MapCubic100to255 x <= 255)%Z.
Proof.
  intros Hx. unfold MapCubic100to255. cbv zeta.
  destruct (Z.leb_spec x 0); [lia|]. destruct (Z.leb_spec 100 x); [lia|].
  unfold float_to_int, Z_to_float. change (inject_Z 100) with 100. change (inject_Z 255) with 255.
  set (q := inject_Z x / 100 * (inject_Z x / 100) * (inject_Z x / 100) * 255 + (1 # 2)).
  assert (0 < inject_Z x) as Hx0 by (change 0 with (inject_Z 0); rewrite <- Zlt_Qlt; lia).
  assert (inject_Z x < 100) as Hx1 by (change 100 with (inject_Z 100); rewrite <- Zlt_Qlt; lia).
  set (u := inject_Z x / 100) in *.
  assert (0 < u /\ u < 1) as [Hu0 Hu1].
  { unfold u. split.
    - apply Qlt_shift_div_l; lra.
    - apply Qlt_shift_div_r; lra. }
  assert (0 <= u * u /\ u * u <= 1) as [Hs0 Hs1] by nra.
  assert (0 <= u * u * u /\ u * u * u <= 1) as [Hc0 Hc1] by nra.
  assert (0 <= q /\ q <= 511 # 2) as [Hq0 Hq1] by (unfold q; lra).
  pose proof (float_to_Z_mono _ _ Hq0) as L0. pose proof (float_to_Z_mono _ _ Hq1) as L1.
  change (float_to_Z 0) with 0%Z in L0. change (float_to_Z (511 # 2)) with 255%Z in L1.
  rewrite to_int_small by lia. split; [reflexivity | lia].
Qed.

(** X10. [MapCubic100to255] returns a value in [0, 255], maps every
    argument up to 0 to 0 and every argument from 100 on to 255, and is
    monotone. *)
Theorem MapCubic100to255_monotone (x y : Z) :
  (x <= y)%Z ->
  (0 <= MapCubic100to255 x <= 255)%Z /\
  (MapCubic100to255 x <= MapCubic100to255 y)%Z /\
  ((x <= 0)%Z -> MapCubic100to255 x = 0%Z) /\
  ((100 <= y)%Z -> MapCubic100to255 y = 255%Z).
Proof.
  intros Hxy.
  assert (forall z, (z <= 0)%Z -> MapCubic100to255 z = 0%Z) as Hlow.
  { intros z Hz. unfold MapCubic100to255. cbv zeta.
    destruct (Z.leb_spec z 0); [reflexivity | lia]. }
  assert (forall z, (100 <= z)%Z -> MapCubic100to255 z = 255%Z) as Hhigh.
  { intros z Hz. unfold MapCubic100to255. cbv zeta.
    destruct (Z.leb_spec z 0); [lia|]. destruct (Z.leb_spec 100 z); [reflexivity | lia]. }
  assert (forall z, (0 <= MapCubic100to255 z <= 255)%Z) as Hrange.
  { intros z. destruct (Z_le_gt_dec z 0) as [Hz|Hz]; [rewrite Hlow by lia; lia|].
    destruct (Z_le_gt_dec 100 z) as [Hz'|Hz']; [rewrite Hhigh by lia; lia|].
    apply MapCubic_inner. lia. }
  split; [apply Hrange|]. split; [| split; [apply Hlow | apply Hhigh]].
  destruct (Z_le_gt_dec x 0) as [Hx|Hx].
  { rewrite (Hlow x Hx). apply Hrange. }
  destruct (Z_le_gt_dec 100 y) as [Hy|Hy].
  { rewrite (Hhigh y Hy). apply Hrange. }
  destruct (MapCubic_inner x) as [-> _]; [lia|].
  destruct (MapCubic_inner y) as [-> _]; [lia|].
  apply float_to_Z_mono.
  assert (0 < inject_Z x) as Hx0 by (change 0 with (inject_Z 0); rewrite <- Zlt_Qlt; lia).
  assert (inject_Z x <= inject_Z y) as Hxy1 by (rewrite <- Zle_Qle; lia).
  set (u := inject_Z x / 100). set (w := inject_Z y / 100).
  assert (0 < u) as Hu by (unfold u; apply Qlt_shift_div_l; lra).
  assert (u <= w) as Huw.
  { unfold u, w, Qdiv. apply Qmult_le_compat_r; [exact Hxy1|]. unfold Qinv, Qle. simpl. lia. }
  assert (u * u <= w * w) as H2 by nra.
  assert (u * u * u <= w * w * w) as H3 by nra.
  lra.
Qed.

Lemma MapCubic100to255_monotone_witness :
  (MapCubic100to255 40 <= MapCubic100to255 70)%Z.
Proof.
  destruct (MapCubic100to255_monotone 40 70) as (_ & H & _); [lia | exact H].
Defined.

(** ** The frame of [Effect] *)

Lemma effect_frame_refl v : effect_frame v v.
Proof. unfold effect_frame, same_render_state. repeat split. Qed.

Lemma effect_frame_trans a b c : effect_frame a b -> effect_frame b c -> effect_frame a c.
Proof.
  unfold effect_frame, same_render_state.
  intros ((?&?&?&?&?&?&?)&?&?) ((?&?&?&?&?&?&?)&?&?). repeat split; congruence.
Qed.

Lemma ShiftScaleChannel_length x channel forward v :
  length (Vars.Scale (ShiftScaleChannel x channel forward v)) = length (Vars.Scale v).
Proof.
  unfold ShiftScaleChannel.
  destruct (Vars.Count v =? 0)%nat; [reflexivity|].
  destruct ((channel <? 0)%Z || (3 <? channel)%Z); [reflexivity|].
  unfold for_downto_1, for_upto.
  destruct forward; simpl; rewrite assign_member_length;
    apply (fold_left_invariant (fun s => length s = length (Vars.Scale v)));
    try reflexivity;
    intros a i Ha; rewrite assign_member_length; exact Ha.
Qed.

Lemma ShiftScaleChannel_frame x channel forward v :
  effect_frame (ShiftScaleChannel x channel forward v) v /\
  Vars.Effect (ShiftScaleChannel x channel forward v) = Vars.Effect v.
Proof.
  pose proof (ShiftScaleChannel_length x channel forward v) as Hlen.
  rewrite ShiftScaleChannel_only_Scale in *. simpl in *.
  unfold effect_frame, same_render_state. simpl. repeat split. exact Hlen.
Qed.

Lemma Effect_channels_frame c v g :
  effect_frame
    (fst (for_upto 4
            (fun n '(v, g) =>
               let '(e, g) := Effect_channel c (Vars.Effect v !!! n) g in
               (Vars.set_Effect (<[n := e]> (Vars.Effect v)) v, g))
            (v, g))) v.
Proof.
  unfold for_upto.
  apply (fold_left_invariant (fun vg : Vars.t * Rng.t => effect_frame (fst vg) v));
    [| apply effect_frame_refl].
  intros [v1 g1] n H. destruct (Effect_channel c (Vars.Effect v1 !!! n) g1) as [e g2].
  cbn [fst]. apply (effect_frame_trans _ v1); [| exact H].
  unfold effect_frame, same_render_state. simpl. repeat split. apply length_insert.
Qed.

(** [Effect] keeps the render state and the lengths of its two buffers. *)
Lemma Effect_keeps_frame (c : Config.t) (v : Vars.t) (g : Rng.t) :
  effect_frame (fst (Effect c (v, g))) v.
Proof.
  unfold Effect. destruct (Config.effectActive c).
  - pose proof (Effect_channels_frame c v g) as H.
    destruct (for_upto 4 _ (v, g)) as [v1 g1]. cbn [fst] in *.
    repeat (eapply effect_frame_trans; [apply ShiftScaleChannel_frame|]).
    exact H.
  - cbn [fst]. unfold for_upto.
    apply (fold_left_invariant (fun a => effect_frame a v)); [| apply effect_frame_refl].
    intros a _ Ha. eapply effect_frame_trans; [apply ShiftScaleChannel_frame | exact Ha].
Qed.

(** X11. [Effect] writes only the scale buffer and the four effect
    containers: the pixel buffers, the live colours, the brightness, the
    on/off factor and the pixel count are kept, and the two buffers keep
    their lengths.  With the effect switched off it also keeps the effect
    containers and draws no random number. *)
Theorem Effect_frame (c : Config.t) (v : Vars.t) (g : Rng.t) :
  effect_frame (fst (Effect c (v, g))) v /\
  (Config.effectActive c = false ->
   Vars.Effect (fst (Effect c (v, g))) = Vars.Effect v /\ snd (Effect c (v, g)) = g).
Proof.
  split; [apply Effect_keeps_frame|].
  intros Hoff. rewrite Effect_inactive_eq by exact Hoff. cbn [fst snd].
  split; [|reflexivity].
  unfold for_upto.
  apply (fold_left_invariant (fun a => Vars.Effect a = Vars.Effect v)); [|reflexivity].
  intros a _ Ha. destruct (ShiftScaleChannel_frame 1 0 true a) as [_ He]. congruence.
Qed.

(** ** [Effect] switched off *)

Lemma ShiftScaleChannel_fills_R k v :
  (Vars.Count v <= length (Vars.Scale v))%nat ->
  R_filled k v -> R_filled (Datatypes.S k) (ShiftScaleChannel 1 0 true v).
Proof.
  intros Hwf Hk j Hj HjC.
  destruct (ShiftScaleChannel_frame 1 0 true v) as [((_&_&_&_&_&_&HC)&_&_) _].
  rewrite HC in HjC.
  unfold ShiftScaleChannel.
  destruct (Vars.Count v =? 0)%nat eqn:E0; [apply Nat.eqb_eq in E0; lia|].
  cbn [Z.ltb Z.compare orb channel_member]. cbn [Vars.Scale Vars.set_Scale].
  destruct (shift_forward_total member_R 1 (Vars.Count v - 1) (Vars.Scale v)) as [_ Hs]; [lia|].
  rewrite Hs.
  destruct (decide (j = 0)%nat); [reflexivity|].
  destruct (decide (j <= Vars.Count v - 1)%nat); [|lia].
  cbn [member_set member_get Pixel_float.R]. apply Hk; lia.
Qed.

Lemma Effect_inactive_fills_R_tick c v g k :
  Config.effectActive c = false ->
  (Vars.Count v <= length (Vars.Scale v))%nat ->
  R_filled k v -> R_filled (k + 4) (fst (Effect c (v, g))).
Proof.
  intros Hoff Hwf Hk. rewrite Effect_inactive_eq by exact Hoff. cbn [fst].
  assert (forall n,
             let a := for_upto n (fun _ v => ShiftScaleChannel 1 0 true v) v in
             (Vars.Count a <= length (Vars.Scale a))%nat /\ R_filled (k + n) a) as H.
  { induction n as [|n [IH1 IH2]]; cbv zeta.
    - rewrite Nat.add_0_r. split; assumption.
    - rewrite for_upto_S. cbv zeta in IH1, IH2.
      destruct (ShiftScaleChannel_frame 1 0 true
                  (for_upto n (fun _ v => ShiftScaleChannel 1 0 true v) v))
        as [((_&_&_&_&_&_&HC)&HL&_) _].
      split; [rewrite HC, HL; exact IH1|].
      rewrite Nat.add_succ_r. apply ShiftScaleChannel_fills_R; assumption. }
  apply (H 4%nat).
Qed.

(** X12. With the effect switched off, every tick pushes four more 1.0
    values into the R channel of the scale buffer: after [n] ticks the first
    [4 * n] live pixels have R scale 1.0, so after a quarter of the strip
    length, rounded up, the whole live R channel is 1.0. *)
Theorem Effect_inactive_fills_R (c : Config.t) (v : Vars.t) (g : Rng.t) (n : nat) :
  Config.effectActive c = false ->
  (Vars.Count v <= length (Vars.Scale v))%nat ->
  R_filled (4 * n) (fst (Effect_ticks c n (v, g))) /\
  ((Vars.Count v <= 4 * n)%nat ->
   forall j, (j < Vars.Count v)%nat ->
     Pixel_float.R (Vars.Scale (fst (Effect_ticks c n (v, g))) !!! j) == 1).
Proof.
  intros Hoff Hwf.
  assert (forall n,
             let a := fst (Effect_ticks c n (v, g)) in
             (Vars.Count a = Vars.Count v /\
              (Vars.Count a <= length (Vars.Scale a))%nat) /\ R_filled (4 * n) a) as H.
  { clear n. induction n as [|n [[IHC IHL] IHR]]; cbv zeta.
    - split; [split; [reflexivity | exact Hwf]|]. intros j Hj. lia.
    - cbv zeta in IHC, IHL, IHR. unfold Effect_ticks in *. rewrite Nat.iter_succ.
      destruct (Nat.iter n (Effect c) (v, g)) as [vn gn]. cbn [fst] in *.
      destruct (Effect_keeps_frame c vn gn) as ((_&_&_&_&_&_&HC)&HL&_).
      split; [split; [rewrite HC; exact IHC | rewrite HC, HL; exact IHL]|].
      replace (4 * Datatypes.S n)%nat with (4 * n + 4)%nat by lia.
      apply Effect_inactive_fills_R_tick; assumption. }
  destruct (H n) as [[HC _] HR]. split; [exact HR|].
  intros Hn j Hj. apply HR; lia.
Qed.

Lemma Effect_inactive_fills_R_witness :
  Pixel_float.R
    (Vars.Scale
       (fst (Effect_ticks (Config.set_effectActive false (Config.default 3)) 1
               (rippled3, rng_zero))) !!! 2%nat) == 1.
Proof.
  destruct (Effect_inactive_fills_R
              (Config.set_effectActive false (Config.default 3)) rippled3 rng_zero 1)
    as [_ H]; [reflexivity | simpl; lia |].
  apply H; simpl; lia.
Defined.

(** ** The scheduler [LED::Update] *)

(** The elapsed time computed on [uint32_t] is the true elapsed time, also
    when [millis()] has wrapped around since the last execution. *)
Lemma uint32_elapsed last d :
  is_uint32 last -> is_uint32 d -> to_uint32 (to_uint32 (last + d) - last) = d.
Proof.
  unfold is_uint32, to_uint32. intros Hl Hd.
  rewrite Zminus_mod_idemp_l.
  replace (last + d - last)%Z with d by lia. apply Z.mod_small. exact Hd.
Qed.

Lemma Fade_frame c v :
  Vars.Pixels (snd (Fade c v)) = Vars.Pixels v /\
  Vars.Colors (snd (Fade c v)) = Vars.Colors v /\
  Vars.Scale (snd (Fade c v)) = Vars.Scale v /\
  Vars.Count (snd (Fade c v)) = Vars.Count v /\
  Vars.Effect (snd (Fade c v)) = Vars.Effect v.
Proof. repeat split. Qed.

(** The render stage of [Update]: [Fade], [ComputeGradient],
    [ApplyOutputScaling]. *)
Lemma render_stage c v :
  exists cs px,
    ApplyOutputScaling
      (ComputeGradient (Config.gradientMode c) (Config.gradientInvertColors c) c
         (snd (Fade c v)))
    = Vars.set_Pixels px (Vars.set_Colors cs (snd (Fade c v))) /\
    (forall j, (j < Vars.Count v)%nat -> (Vars.Count v <= length (Vars.Colors v))%nat ->
       cs !! j
       = Some (to_byte_pixel
                 (gradient_source (Config.gradientMode c) c
                    (primary_of (Config.gradientInvertColors c) (snd (Fade c v)))
                    (secondary_of (Config.gradientInvertColors c) (snd (Fade c v)))
                    (Vars.Count v) j))) /\
    (forall j, (j < Vars.Count v)%nat -> (Vars.Count v <= length (Vars.Pixels v))%nat ->
       px !! j
       = Some (quantize_pixel (constrain (Vars.brightness (snd (Fade c v))) 0 255 / 255)
                 (Vars.onoffFactor (snd (Fade c v))) (cs !!! j) (Vars.Scale v !!! j))).
Proof.
  destruct (Fade_frame c v) as (FP & FC & FS & FN & FE).
  set (v1 := snd (Fade c v)) in *.
  destruct (ComputeGradient_paints (Config.gradientMode c) (Config.gradientInvertColors c) c v1)
    as (cs & Hcs & _ & Hlook).
  rewrite Hcs.
  destruct (ApplyOutputScaling_spec (Vars.set_Colors cs v1)) as (px & Hpx & _ & Hplook).
  exists cs, px. split; [exact Hpx|]. split.
  - intros j Hj Hwf. rewrite Hlook, FN, FC.
    destruct (decide (j < Vars.Count v)%nat); [|lia].
    destruct (lookup_lt_is_Some_2 (Vars.Colors v) j) as [p ->]; [lia | reflexivity].
  - intros j Hj Hwf. rewrite Hplook.
    cbn [Vars.Count Vars.Pixels Vars.Colors Vars.Scale Vars.brightness Vars.onoffFactor
         Vars.set_Colors].
    rewrite FN, FP, FS.
    destruct (decide (j < Vars.Count v)%nat); [|lia].
    destruct (lookup_lt_is_Some_2 (Vars.Pixels v) j) as [p ->]; [lia | reflexivity].
Qed.

(** X13. The two gates of [LED::Update] follow the true elapsed time: when
    [millis()] is [dp] ms past the last render and [de] ms past the last
    effect tick, also across a wrap-around of the 32-bit counter, the render
    stage runs exactly when [dp] exceeds [processingIntervalMs] and the effect
    stage exactly when [de] exceeds [effectIntervalMs]; a stage that runs
    stamps its own time of last execution, [active] is never written, and
    when neither runs nothing changes at all. *)
Theorem Update_schedule (s : State.t) (c : Config.t) (v : Vars.t) (g : Rng.t)
    (dp de t2 t4 : Z) :
  is_uint32 (State.processingLastExecutionMs s) ->
  is_uint32 (State.effectLastExecutionMs s) ->
  is_uint32 dp -> is_uint32 de ->
  let r := LED.Update (to_uint32 (State.processingLastExecutionMs s + dp)) t2
                      (to_uint32 (State.effectLastExecutionMs s + de)) t4 s c (v, g) in
  State.processingLastExecutionMs (fst r)
  = (if (Config.processingIntervalMs c <? dp)%Z then t2
     else State.processingLastExecutionMs s) /\
  State.effectLastExecutionMs (fst r)
  = (if (Config.effectIntervalMs c <? de)%Z then t4 else State.effectLastExecutionMs s) /\
  State.active (fst r) = State.active s /\
  ((dp <= Config.processingIntervalMs c)%Z -> (de <= Config.effectIntervalMs c)%Z ->
   r = (s, (v, g))).
Proof.
  intros Hp He Hdp Hde. cbv zeta. unfold LED.Update.
  rewrite (uint32_elapsed _ _ Hp Hdp).
  destruct (Config.processingIntervalMs c <? dp)%Z eqn:Ep;
    cbn [State.effectLastExecutionMs State.processingLastExecutionMs State.active];
    rewrite (uint32_elapsed _ _ He Hde);
    destruct (Config.effectIntervalMs c <? de)%Z eqn:Ee;
    cbn [fst State.effectLastExecutionMs State.processingLastExecutionMs State.active];
    repeat split;
    try (apply Z.ltb_lt in Ep); try (apply Z.ltb_lt in Ee); intros; try lia.
Qed.

Lemma Update_schedule_witness :
  State.processingLastExecutionMs
    (fst (LED.Update (to_uint32 (4294967290 + 20)) 15 (to_uint32 (10 + 4)) 15
            (State.mk true 4294967290 10) (Config.default 3) (rippled3, rng_zero)))
  = 15%Z.
Proof.
  destruct (Update_schedule (State.mk true 4294967290 10) (Config.default 3)
              rippled3 rng_zero 20 4 15 15) as (H & _);
    [unfold is_uint32; simpl; lia | unfold is_uint32; simpl; lia
     | unfold is_uint32; lia | unfold is_uint32; lia |].
  exact H.
Defined.

(** X14. [LED::Update] never changes the pixel count.  While the render
    gate is closed it leaves the pixel buffers and the live values alone;
    while the effect gate is closed it leaves the scale buffer and the
    effect containers alone and draws no random number. *)
Theorem Update_frame (t1 t2 t3 t4 : Z) (s : State.t) (c : Config.t) (v : Vars.t) (g : Rng.t) :
  Vars.Count (fst (snd (LED.Update t1 t2 t3 t4 s c (v, g)))) = Vars.Count v /\
  ((to_uint32 (t1 - State.processingLastExecutionMs s) <= Config.processingIntervalMs c)%Z ->
   same_render_state (fst (snd (LED.Update t1 t2 t3 t4 s c (v, g)))) v) /\
  ((to_uint32 (t3 - State.effectLastExecutionMs s) <= Config.effectIntervalMs c)%Z ->
   same_effect_state (fst (snd (LED.Update t1 t2 t3 t4 s c (v, g)))) v /\
   snd (snd (LED.Update t1 t2 t3 t4 s c (v, g))) = g).
Proof.
  unfold LED.Update, LED.UpdateColor.
  destruct (render_stage c v) as (cs & px & Hr & _).
  destruct (Config.processingIntervalMs c
            <? to_uint32 (t1 - State.processingLastExecutionMs s))%Z eqn:Ep;
    cbn [fst snd State.effectLastExecutionMs];
    destruct (Config.effectIntervalMs c
              <? to_uint32 (t3 - State.effectLastExecutionMs s))%Z eqn:Ee;
    cbn [fst snd];
    try (apply Z.ltb_lt in Ep); try (apply Z.ltb_lt in Ee);
    try (apply Z.ltb_ge in Ep); try (apply Z.ltb_ge in Ee);
    (split; [| split; intros Hg; try lia]).
  - rewrite Hr.
    destruct (Effect_keeps_frame c (Vars.set_Pixels px (Vars.set_Colors cs (snd (Fade c v)))) g)
      as ((_&_&_&_&_&_&HC)&_).
    rewrite HC. reflexivity.
  - rewrite Hr. reflexivity.
  - rewrite Hr. split; [split; reflexivity | reflexivity].
  - destruct (Effect_keeps_frame c v g) as ((_&_&_&_&_&_&HC)&_). exact HC.
  - destruct (Effect_keeps_frame c v g) as (H&_). exact H.
  - reflexivity.
  - unfold same_render_state. repeat split.
  - split; [split; reflexivity | reflexivity].
Qed.

Lemma Update_frame_witness :
  same_render_state
    (fst (snd (LED.Update 5 5 20 20 (State.mk true 0 0) (Config.default 3)
                 (rippled3, rng_zero)))) rippled3.
Proof.
  destruct (Update_frame 5 5 20 20 (State.mk true 0 0) (Config.default 3) rippled3 rng_zero)
    as (_ & H & _).
  apply H. vm_compute. discriminate.
Defined.

(** X15. When the render gate of [LED::Update] is open, the call leaves in
    the live values what [Fade] makes of them, in every live entry of
    [Colors] the gradient colour of that pixel for the faded colours, and in
    every live entry of [Pixels] that colour quantized with the faded
    brightness and on/off factor and with the scale entry from before the
    call: the effect tick of the same call comes after the rendering and
    shows only in the next one. *)
Theorem Update_renders (t1 t2 t3 t4 : Z) (s : State.t) (c : Config.t) (v : Vars.t)
    (g : Rng.t) (j : nat) :
  (Config.processingIntervalMs c < to_uint32 (t1 - State.processingLastExecutionMs s))%Z ->
  (Vars.Count v <= length (Vars.Colors v))%nat ->
  (Vars.Count v <= length (Vars.Pixels v))%nat ->
  (j < Vars.Count v)%nat ->
  let faded := snd (Fade c v) in
  let shown := fst (snd (LED.Update t1 t2 t3 t4 s c (v, g))) in
  let colour :=
    to_byte_pixel
      (gradient_source (Config.gradientMode c) c
         (primary_of (Config.gradientInvertColors c) faded)
         (secondary_of (Config.gradientInvertColors c) faded) (Vars.Count v) j) in
  (forall sc, live_scalar sc shown = live_scalar sc faded) /\
  Vars.Colors shown !! j = Some colour /\
  Vars.Pixels shown !! j
  = Some (quantize_pixel (constrain (Vars.brightness faded) 0 255 / 255)
            (Vars.onoffFactor faded) colour (Vars.Scale v !!! j)).
Proof.
  intros Hgate HC HP Hj. cbv zeta.
  unfold LED.Update, LED.UpdateColor.
  apply Z.ltb_lt in Hgate. rewrite Hgate. cbn [fst snd State.effectLastExecutionMs].
  destruct (render_stage c v) as (cs & px & Hr & Hcs & Hpx).
  rewrite Hr. specialize (Hcs j Hj HC). specialize (Hpx j Hj HP).
  rewrite (list_lookup_total_correct _ _ _ Hcs) in Hpx.
  set (v3 := Vars.set_Pixels px (Vars.set_Colors cs (snd (Fade c v)))).
  match goal with
  | |- context [snd (if ?b then (?s1, Effect c (v3, g)) else (?s2, (v3, g)))] =>
      set (res := if b then (s1, Effect c (v3, g)) else (s2, (v3, g)))
  end.
  assert (same_render_state (fst (snd res)) v3) as (EP & EC & E1 & E2 & EB & EO & _).
  { unfold res. destruct (Config.effectIntervalMs c <? _)%Z; cbn [fst snd].
    - apply Effect_keeps_frame.
    - unfold same_render_state. repeat split. }
  change (Vars.Pixels v3) with px in EP. change (Vars.Colors v3) with cs in EC.
  change (Vars.colorOne v3) with (Vars.colorOne (snd (Fade c v))) in E1.
  change (Vars.colorTwo v3) with (Vars.colorTwo (snd (Fade c v))) in E2.
  change (Vars.brightness v3) with (Vars.brightness (snd (Fade c v))) in EB.
  change (Vars.onoffFactor v3) with (Vars.onoffFactor (snd (Fade c v))) in EO.
  split; [| split].
  - intros sc. destruct sc; cbn [live_scalar]; congruence.
  - rewrite EC. exact Hcs.
  - rewrite EP. exact Hpx.
Qed.

Lemma Update_renders_witness :
  Vars.Colors
    (fst (snd (LED.Update 20 20 20 20 (State.mk true 0 0) (Config.default 3)
                 (rippled3, rng_zero)))) !! 0%nat
  = Some (to_byte_pixel
            (gradient_source LINEAR_PADDING (Config.default 3)
               (Vars.colorOne (snd (Fade (Config.default 3) rippled3)))
               (Vars.colorTwo (snd (Fade (Config.default 3) rippled3))) 3 0)).
Proof.
  destruct (Update_renders 20 20 20 20 (State.mk true 0 0) (Config.default 3)
              rippled3 rng_zero 0) as (_ & H & _);
    [vm_compute; reflexivity | simpl; lia | simpl; lia | simpl; lia |].
  exact H.
Defined.

(** ** The setters of the LED interface *)

Lemma to_uint32_succ_succ z : to_uint32 (to_uint32 (z + 1) + 1) = to_uint32 (z + 2).
Proof.
  unfold to_uint32. rewrite Zplus_mod_idemp_l. f_equal. lia.
Qed.

(** X16. The colour overload of [LED::Set] refuses the target BRIGHTNESS
    and then changes nothing; for a colour target it stores the four bytes
    as floats in that staged colour only, counts one change and stamps the
    time.  The value overload refuses every target but BRIGHTNESS; for
    BRIGHTNESS it stores the value as staged brightness and counts two
    changes, one in [SetStagingBrightness] and one of its own. *)
Theorem LED_Set_change_tracking (r g b w value now now2 : Z) (c : Config.t) :
  LED.Set_color LED.BRIGHTNESS r g b w now c = (false, c) /\
  (let c1 := snd (LED.Set_color LED.COLOR_ONE r g b w now c) in
   fst (LED.Set_color LED.COLOR_ONE r g b w now c) = true /\
   Config.colorOneStaging c1
   = Pixel_float.mk (inject_Z r) (inject_Z g) (inject_Z b) (inject_Z w) /\
   Config.colorTwoStaging c1 = Config.colorTwoStaging c /\
   Config.brightnessStaging c1 = Config.brightnessStaging c /\
   Config.changeCounter c1 = to_uint32 (Config.changeCounter c + 1) /\
   Config.lastModifiedMs c1 = now) /\
  (let c2 := snd (LED.Set_color LED.COLOR_TWO r g b w now c) in
   fst (LED.Set_color LED.COLOR_TWO r g b w now c) = true /\
   Config.colorTwoStaging c2
   = Pixel_float.mk (inject_Z r) (inject_Z g) (inject_Z b) (inject_Z w) /\
   Config.colorOneStaging c2 = Config.colorOneStaging c /\
   Config.brightnessStaging c2 = Config.brightnessStaging c /\
   Config.changeCounter c2 = to_uint32 (Config.changeCounter c + 1) /\
   Config.lastModifiedMs c2 = now) /\
  LED.Set_value LED.COLOR_ONE value now now2 c = (false, c) /\
  LED.Set_value LED.COLOR_TWO value now now2 c = (false, c) /\
  (let c3 := snd (LED.Set_value LED.BRIGHTNESS value now now2 c) in
   fst (LED.Set_value LED.BRIGHTNESS value now now2 c) = true /\
   Config.brightnessStaging c3 = inject_Z value /\
   Config.colorOneStaging c3 = Config.colorOneStaging c /\
   Config.colorTwoStaging c3 = Config.colorTwoStaging c /\
   Config.changeCounter c3 = to_uint32 (Config.changeCounter c + 2) /\
   Config.lastModifiedMs c3 = now2).
Proof.
  repeat split. cbn. apply to_uint32_succ_succ.
Qed.

Lemma inject_Z_byte z : is_uint8 z -> 0 <= inject_Z z <= 255.
Proof.
  unfold is_uint8. intros H. change 0 with (inject_Z 0). change 255 with (inject_Z 255).
  rewrite <- !Zle_Qle. exact H.
Qed.

(** X17. The setters keep the staged targets in their nominal ranges: from
    a configuration whose staged values are in range and whose increments
    are positive, [LED::Set] with byte arguments, on any target and in either
    overload, and [LED::SetBrightness] with a byte lead to such a
    configuration again. *)
Theorem LED_Set_keeps_staging_in_range (target : LED.SetTarget)
    (r g b w value now now2 : Z) (c : Config.t) :
  staging_in_range c -> byte_args r g b w -> is_uint8 value ->
  staging_in_range (snd (LED.Set_color target r g b w now c)) /\
  staging_in_range (snd (LED.Set_value target value now now2 c)) /\
  staging_in_range (LED.SetBrightness value now c).
Proof.
  intros (HbS & HoS & H1 & H2 & Hbi & Hoi & Hci) (Hr & Hg & Hb & Hw) Hv.
  apply inject_Z_byte in Hr, Hg, Hb, Hw, Hv.
  unfold staging_in_range, color_in_range in *.
  destruct target; cbn; unfold Z_to_float; tauto.
Qed.

Lemma LED_Set_keeps_staging_in_range_witness :
  staging_in_range (snd (LED.Set_color LED.COLOR_TWO 10 20 30 40 7 (Config.default 3))).
Proof.
  destruct (LED_Set_keeps_staging_in_range LED.COLOR_TWO 10 20 30 40 50 7 8
              (Config.default 3)) as (H & _).
  - unfold staging_in_range, color_in_range. cbn. repeat split; lra.
  - unfold byte_args, is_uint8. lia.
  - unfold is_uint8. lia.
  - exact H.
Defined.

(** ** [Init] *)

(** One more step of a loop that stores [x] at the loop index. *)
Lemma fill_step {A : Type} (x : A) (l0 l : list A) (k : nat) :
  length l = length l0 ->
  (forall j, l !! j = if decide (j < k)%nat then (fun _ => x) <$> l0 !! j else l0 !! j) ->
  length (<[k := x]> l) = length l0 /\
  forall j, <[k := x]> l !! j
            = if decide (j < Datatypes.S k)%nat then (fun _ => x) <$> l0 !! j else l0 !! j.
Proof.
  intros Hlen Hlook. split; [rewrite length_insert; exact Hlen|].
  intros j. rewrite list_lookup_insert, Hlen, Hlook.
  destruct (decide (k = j /\ (k < length l0)%nat)) as [[-> Hin]|Hno].
  - destruct (decide (j < Datatypes.S j)%nat); [|lia].
    destruct (lookup_lt_is_Some_2 _ _ Hin) as [p ->]. reflexivity.
  - destruct (decide (j < k)%nat), (decide (j < Datatypes.S k)%nat);
      try lia; try reflexivity.
    assert (j = k) as -> by lia.
    rewrite lookup_ge_None_2 by lia. reflexivity.
Qed.

Lemma fill_lookup_live {A : Type} (x : A) (l0 l : list A) (k j : nat) :
  (forall j, l !! j = if decide (j < k)%nat then (fun _ => x) <$> l0 !! j else l0 !! j) ->
  (k <= length l0)%nat ->
  ((j < k)%nat -> l !! j = Some x) /\ ((k <= j)%nat -> l !! j = l0 !! j).
Proof.
  intros Hlook Hk. rewrite Hlook. split; intros Hj.
  - destruct (decide (j < k)%nat); [|lia].
    destruct (lookup_lt_is_Some_2 l0 j) as [p ->]; [lia | reflexivity].
  - destruct (decide (j < k)%nat); [lia | reflexivity].
Qed.

Lemma Init_loop v k :
  exists px cs sc,
    for_upto k
      (fun i v =>
         Vars.set_Scale (<[i := Pixel_float.mk 1 1 1 1]> (Vars.Scale v))
           (Vars.set_Colors (<[i := Pixel_byte.mk 0 0 0 0]> (Vars.Colors v))
              (Vars.set_Pixels (<[i := Pixel_byte.mk 0 0 0 0]> (Vars.Pixels v)) v)))
      v
    = Vars.set_Scale sc (Vars.set_Colors cs (Vars.set_Pixels px v)) /\
    (length px = length (Vars.Pixels v) /\
     forall j, px !! j = if decide (j < k)%nat
                         then (fun _ => Pixel_byte.mk 0 0 0 0) <$> Vars.Pixels v !! j
                         else Vars.Pixels v !! j) /\
    (length cs = length (Vars.Colors v) /\
     forall j, cs !! j = if decide (j < k)%nat
                         then (fun _ => Pixel_byte.mk 0 0 0 0) <$> Vars.Colors v !! j
                         else Vars.Colors v !! j) /\
    (length sc = length (Vars.Scale v) /\
     forall j, sc !! j = if decide (j < k)%nat
                         then (fun _ => Pixel_float.mk 1 1 1 1) <$> Vars.Scale v !! j
                         else Vars.Scale v !! j).
Proof.
  induction k as [|k (px & cs & sc & Hrun & [HP1 HP2] & [HC1 HC2] & [HS1 HS2])].
  - exists (Vars.Pixels v), (Vars.Colors v), (Vars.Scale v).
    split; [destruct v; reflexivity|].
    repeat split; intros j; destruct (decide (j < 0)%nat); try lia; reflexivity.
  - rewrite for_upto_S, Hrun. simpl.
    eexists _, _, _. split; [reflexivity|].
    split; [| split]; apply fill_step; assumption.
Qed.

(** X18. [Init] refuses a strip of no pixels or of more pixels than the
    buffers hold, and then changes nothing.  Otherwise it succeeds: the
    renderer is active with both stamps set, every live pixel is dark in
    [Pixels] and [Colors] and has scale 1.0, entries beyond [Count] are
    untouched, both live colours are black, the on/off factor is 1, the
    four effect containers are reset, the staged colours are red and green
    with full staged brightness, and the live brightness and the increments
    are kept; so with positive increments and a live brightness in
    [0, 255] the Fader starts from nominal ranges. *)
Theorem Init_postcondition (Capacity : nat) (now : Z) (s : State.t) (c : Config.t)
    (v : Vars.t) (j : nat) :
  (Vars.Count v <= length (Vars.Pixels v))%nat ->
  (Vars.Count v <= length (Vars.Colors v))%nat ->
  (Vars.Count v <= length (Vars.Scale v))%nat ->
  length (Vars.Effect v) = 4%nat ->
  ((Vars.Count v = 0 \/ Capacity < Vars.Count v)%nat ->
   Init Capacity now s c v = (false, (s, c, v))) /\
  ((0 < Vars.Count v <= Capacity)%nat ->
   let '(ok, (s', c', v')) := Init Capacity now s c v in
   ok = true /\ s' = State.mk true now now /\
   Vars.Count v' = Vars.Count v /\ Vars.brightness v' = Vars.brightness v /\
   Vars.onoffFactor v' = 1 /\
   Vars.colorOne v' = Pixel_float.mk 0 0 0 0 /\ Vars.colorTwo v' = Pixel_float.mk 0 0 0 0 /\
   Vars.Effect v' = replicate 4 (Effect_Container.mk 1 1 1 0 1 false) /\
   ((j < Vars.Count v)%nat ->
    Vars.Pixels v' !! j = Some (Pixel_byte.mk 0 0 0 0) /\
    Vars.Colors v' !! j = Some (Pixel_byte.mk 0 0 0 0) /\
    Vars.Scale v' !! j = Some (Pixel_float.mk 1 1 1 1)) /\
   ((Vars.Count v <= j)%nat ->
    Vars.Pixels v' !! j = Vars.Pixels v !! j /\
    Vars.Colors v' !! j = Vars.Colors v !! j /\
    Vars.Scale v' !! j = Vars.Scale v !! j) /\
   Config.colorOneStaging c' = Pixel_float.mk 255 0 0 0 /\
   Config.colorTwoStaging c' = Pixel_float.mk 0 255 0 0 /\
   Config.brightnessStaging c' = 255 /\ Config.onoffStaging c' = 1 /\
   (0 < Config.colorIncrement c -> 0 < Config.brightnessIncrement c ->
    0 < Config.onoffIncrement c -> 0 <= Vars.brightness v <= 255 ->
    staging_in_range c' /\ live_in_range v')).
Proof.
  intros HP HC HS HE. unfold Init. split.
  - intros [H0|Hcap].
    + rewrite H0. reflexivity.
    + destruct (Vars.Count v =? 0)%nat; [reflexivity|].
      apply Nat.ltb_lt in Hcap. rewrite Hcap. reflexivity.
  - intros [H0 Hcap].
    destruct (Nat.eqb_spec (Vars.Count v) 0); [lia|].
    destruct (Nat.ltb_spec Capacity (Vars.Count v)); [lia|]. cbn [orb].
    destruct (Init_loop v (Vars.Count v))
      as (px & cs & sc & -> & [HP1 HP2] & [HC1 HC2] & [HS1 HS2]).
    cbn [Vars.Pixels Vars.Colors Vars.Scale Vars.colorOne Vars.colorTwo Vars.brightness
         Vars.onoffFactor Vars.Count Vars.Effect Vars.set_Scale Vars.set_Colors
         Vars.set_Pixels Config.colorOneStaging Config.colorTwoStaging
         Config.brightnessStaging Config.onoffStaging].
    repeat (split; [reflexivity|]).
    split.
    { destruct (Vars.Effect v) as [|a [|b [|d [|e [|]]]]]; try discriminate HE. reflexivity. }
    destruct (fill_lookup_live _ _ _ _ j HP2 HP) as [P1 P2].
    destruct (fill_lookup_live _ _ _ _ j HC2 HC) as [C1 C2].
    destruct (fill_lookup_live _ _ _ _ j HS2 HS) as [S1 S2].
    split; [intros Hj; auto|]. split; [intros Hj; auto|].
    repeat (split; [reflexivity|]).
    intros Hci Hbi Hoi Hb.
    unfold staging_in_range, live_in_range, color_in_range. cbn.
    repeat split; try assumption; try lra; apply Hb.
Qed.

Lemma Init_postcondition_witness :
  fst (Init 3 42 (State.mk false 0 0) (Config.default 3) overdriven3) = true.
Proof.
  destruct (Init_postcondition 3 42 (State.mk false 0 0) (Config.default 3) overdriven3 0)
    as [_ H]; [simpl; lia | simpl; lia | simpl; lia | reflexivity |].
  destruct (Init 3 42 (State.mk false 0 0) (Config.default 3) overdriven3)
    as [ok [[s' c'] v']].
  apply H. simpl. lia.
Defined.

(** ** Persistence: the blob of [SaveStructPref] and [LoadStructPref] *)

Lemma checksum_fold data s0 :
  fold_left (fun s b => to_uint32 (s + b)) data (to_uint32 s0)
  = to_uint32 (s0 + byte_sum data).
Proof.
  revert s0. induction data as [|b l IH]; intros s0; cbn [fold_left byte_sum fold_right].
  - f_equal. lia.
  - assert (to_uint32 (to_uint32 s0 + b) = to_uint32 (s0 + b)) as ->
      by (unfold to_uint32; apply Zplus_mod_idemp_l).
    rewrite IH. f_equal. unfold byte_sum. lia.
Qed.

(** The checksum is the byte sum modulo 65536. *)
Lemma simpleChecksum_sum data : SETTINGS.simpleChecksum data = (byte_sum data mod 65536)%Z.
Proof.
  unfold SETTINGS.simpleChecksum. cbv zeta.
  change 0%Z with (to_uint32 0) at 1. rewrite checksum_fold. cbn [Z.add].
  unfold to_uint32, to_uint16.
  change 65535%Z with (Z.ones 16). rewrite Z.land_ones by lia.
  rewrite Z.mod_mod by lia.
  change (2 ^ 32)%Z with (2 ^ 16 * 2 ^ 16)%Z.
  rewrite Z.mod_mod_divide; [reflexivity|].
  exists (2 ^ 16)%Z. reflexivity.
Qed.

Lemma simpleChecksum_range data : (0 <= SETTINGS.simpleChecksum data < 65536)%Z.
Proof. rewrite simpleChecksum_sum. apply Z.mod_pos_bound. lia. Qed.

Lemma strlen_no_NUL s : no_NUL s -> SETTINGS.strlen s = length s.
Proof.
  induction 1 as [|b l Hb _ IH]; [reflexivity|]. cbn [SETTINGS.strlen length].
  destruct (Z.eqb_spec b 0); [contradiction|]. rewrite IH. reflexivity.
Qed.

(** What [SaveStructPref] stores for a version literal without embedded
    terminator. *)
Lemma SaveStructPref_blob version obj pref :
  no_NUL version ->
  (length version + length obj + 2 <= SETTINGS.kMaxBlobBuffer)%nat ->
  SETTINGS.SaveStructPref version obj true pref
  = (true, Some (blob_of version obj (SETTINGS.simpleChecksum obj))).
Proof.
  intros Hv Hlen. unfold SETTINGS.SaveStructPref. cbv zeta.
  destruct (Nat.ltb_spec SETTINGS.kMaxBlobBuffer (length version + length obj + 2)); [lia|].
  rewrite (strlen_no_NUL _ Hv).
  destruct (Nat.ltb_spec (length version) (length version)); [lia|].
  rewrite firstn_all, drop_replicate, Nat.sub_diag. cbn [replicate].
  rewrite app_nil_r. reflexivity.
Qed.

(** What [LoadStructPref] does with a blob of the right layout and size. *)
Lemma LoadStructPref_blob version outObj payload lo hi :
  (length version + length payload + 2 <= SETTINGS.kMaxBlobBuffer)%nat ->
  length payload = length outObj ->
  SETTINGS.LoadStructPref version outObj (Some (version ++ payload ++ [lo; hi]))
  = (bool_decide ((lo + 256 * hi)%Z = SETTINGS.simpleChecksum payload), payload).
Proof.
  intros Hlen HP. unfold SETTINGS.LoadStructPref. cbv zeta.
  change (default [] (Some (version ++ payload ++ [lo; hi])))
    with (version ++ payload ++ [lo; hi]).
  assert (length (version ++ payload ++ [lo; hi]) = (length version + length payload + 2)%nat)
    as Htot by (rewrite !length_app; simpl; lia).
  rewrite Htot.
  destruct (Nat.eqb_spec (length version + length payload + 2) 0); [lia|].
  destruct (Nat.ltb_spec (length version + length payload + 2) (length version + 2)); [lia|].
  destruct (Nat.ltb_spec SETTINGS.kMaxBlobBuffer (length version + length payload + 2)); [lia|].
  rewrite take_app_length. rewrite bool_decide_eq_true_2 by reflexivity. cbn [negb].
  replace (length version + length payload + 2 - (length version + 2))%nat
    with (length payload) by lia.
  rewrite HP, Nat.eqb_refl. cbn [negb]. rewrite <- HP.
  rewrite drop_app_length, take_app_length.
  assert ((version ++ payload ++ [lo; hi]) !! (length version + length payload)%nat = Some lo)
    as Hlo.
  { rewrite lookup_app_r by lia. rewrite lookup_app_r by lia.
    replace (length version + length payload - length version - length payload)%nat
      with 0%nat by lia. reflexivity. }
  assert ((version ++ payload ++ [lo; hi]) !! (length version + length payload + 1)%nat
          = Some hi) as Hhi.
  { rewrite lookup_app_r by lia. rewrite lookup_app_r by lia.
    replace (length version + length payload + 1 - length version - length payload)%nat
      with 1%nat by lia. reflexivity. }
  rewrite (list_lookup_total_correct _ _ _ Hlo), (list_lookup_total_correct _ _ _ Hhi).
  destruct (Z.eqb_spec (lo + 256 * hi) (SETTINGS.simpleChecksum payload)) as [He|Hne].
  - rewrite bool_decide_eq_true_2 by exact He. reflexivity.
  - rewrite bool_decide_eq_false_2 by exact Hne. reflexivity.
Qed.

Lemma checksum_bytes csum :
  ((csum mod 256) + 256 * (csum / 256))%Z = csum.
Proof. pose proof (Z.div_mod csum 256). lia. Qed.

(** X19. What [SaveStructPref] stores, [LoadStructPref] reads back: for a
    version literal without embedded terminator and an object that fits the
    512-byte buffer, a successful save followed by a load into an object of
    the same size succeeds and yields the saved bytes.  An object too large
    for the buffer is refused and the store is left as it was. *)
Theorem Settings_round_trip (version obj outObj : list Z) (pref : option (list Z)) :
  no_NUL version -> length outObj = length obj ->
  ((length version + length obj + 2 <= SETTINGS.kMaxBlobBuffer)%nat ->
   fst (SETTINGS.SaveStructPref version obj true pref) = true /\
   SETTINGS.LoadStructPref version outObj (snd (SETTINGS.SaveStructPref version obj true pref))
   = (true, obj)) /\
  ((SETTINGS.kMaxBlobBuffer < length version + length obj + 2)%nat ->
   SETTINGS.SaveStructPref version obj true pref = (false, pref)).
Proof.
  intros Hv Hout. split; intros Hlen.
  - rewrite SaveStructPref_blob by assumption. cbn [fst snd]. split; [reflexivity|].
    unfold blob_of. rewrite LoadStructPref_blob by (assumption || congruence).
    rewrite bool_decide_eq_true_2 by apply checksum_bytes. reflexivity.
  - unfold SETTINGS.SaveStructPref. cbv zeta.
    destruct (Nat.ltb_spec SETTINGS.kMaxBlobBuffer (length version + length obj + 2));
      [reflexivity | lia].
Qed.

Lemma Settings_round_trip_witness :
  SETTINGS.LoadStructPref [86; 48; 49]%Z [0; 0; 0; 0]%Z
    (snd (SETTINGS.SaveStructPref [86; 48; 49]%Z [7; 200; 255; 3]%Z true None))
  = (true, [7; 200; 255; 3]%Z).
Proof.
  destruct (Settings_round_trip [86; 48; 49]%Z [7; 200; 255; 3]%Z [0; 0; 0; 0]%Z None)
    as [H _]; [repeat constructor; discriminate | reflexivity |].
  apply H. unfold SETTINGS.kMaxBlobBuffer. simpl. lia.
Defined.

Lemma byte_sum_insert (l : list Z) (i : nat) (x : Z) :
  (i < length l)%nat -> byte_sum (<[i := x]> l) = (byte_sum l - l !!! i + x)%Z.
Proof.
  revert i. induction l as [|b l IH]; intros i Hi; [simpl in Hi; lia|].
  destruct i as [|i].
  - cbn. lia.
  - cbn [length] in Hi. change (<[Datatypes.S i := x]> (b :: l)) with (b :: <[i := x]> l).
    change ((b :: l) !!! Datatypes.S i) with (l !!! i).
    change (byte_sum (b :: <[i := x]> l)) with (b + byte_sum (<[i := x]> l))%Z.
    change (byte_sum (b :: l)) with (b + byte_sum l)%Z.
    rewrite IH by lia. lia.
Qed.

Lemma byte_sum_Permutation (l l' : list Z) : l ≡ₚ l' -> byte_sum l = byte_sum l'.
Proof.
  unfold byte_sum.
  induction 1 as [|x l l' _ IH|x y l|l l' l'' _ IH1 _ IH2]; cbn [fold_right] in *; lia.
Qed.

(** X20. A change of one payload byte of a stored blob is detected: the
    load fails.  The output object has been overwritten with the damaged
    payload all the same. *)
Theorem Settings_detects_changed_byte (version payload outObj : list Z) (i : nat) (b : Z) :
  (length version + length payload + 2 <= SETTINGS.kMaxBlobBuffer)%nat ->
  length outObj = length payload ->
  is_bytes payload -> is_uint8 b -> (i < length payload)%nat -> b <> payload !!! i ->
  SETTINGS.LoadStructPref version outObj
    (Some (blob_of version (<[i := b]> payload) (SETTINGS.simpleChecksum payload)))
  = (false, <[i := b]> payload).
Proof.
  intros Hlen Hout Hbytes Hb Hi Hne. unfold blob_of.
  rewrite LoadStructPref_blob by (rewrite length_insert; lia || congruence).
  rewrite checksum_bytes, !simpleChecksum_sum, byte_sum_insert by exact Hi.
  assert (is_uint8 (payload !!! i)) as Hold.
  { destruct (lookup_lt_is_Some_2 payload i Hi) as [p Hp].
    rewrite (list_lookup_total_correct _ _ _ Hp).
    exact (proj1 (Forall_lookup _ _) Hbytes i p Hp). }
  unfold is_uint8 in *.
  rewrite bool_decide_eq_false_2; [reflexivity|].
  intros Heq.
  set (s := byte_sum payload) in *. set (o := payload !!! i) in *.
  assert (((s - o + b) - s) mod 65536 = 0)%Z as H0.
  { rewrite Zminus_mod, <- Heq, Z.sub_diag. reflexivity. }
  replace (s - o + b - s)%Z with (b - o)%Z in H0 by lia.
  apply Z.mod_divide in H0; [|lia]. destruct H0 as [k Hk]. lia.
Qed.

Lemma Settings_detects_changed_byte_witness :
  SETTINGS.LoadStructPref [86; 48; 49]%Z [0; 0; 0; 0]%Z
    (Some (blob_of [86; 48; 49]%Z (<[2%nat := 254%Z]> [7; 200; 255; 3]%Z)
             (SETTINGS.simpleChecksum [7; 200; 255; 3]%Z)))
  = (false, [7; 200; 254; 3]%Z).
Proof.
  apply (Settings_detects_changed_byte [86; 48; 49]%Z [7; 200; 255; 3]%Z [0; 0; 0; 0]%Z
           2 254).
  - unfold SETTINGS.kMaxBlobBuffer. simpl. lia.
  - reflexivity.
  - unfold is_bytes, is_uint8. repeat constructor; lia.
  - unfold is_uint8. lia.
  - simpl. lia.
  - simpl. lia.
Defined.

(** X21. The checksum does not see the order of the bytes: a stored blob
    whose payload bytes have been rearranged, checksum untouched, is loaded
    with success and yields the rearranged payload. *)
Theorem Settings_accepts_reordered_payload (version payload payload' outObj : list Z) :
  (length version + length payload + 2 <= SETTINGS.kMaxBlobBuffer)%nat ->
  length outObj = length payload ->
  payload ≡ₚ payload' ->
  SETTINGS.simpleChecksum payload' = SETTINGS.simpleChecksum payload /\
  SETTINGS.LoadStructPref version outObj
    (Some (blob_of version payload' (SETTINGS.simpleChecksum payload)))
  = (true, payload').
Proof.
  intros Hlen Hout Hperm.
  assert (SETTINGS.simpleChecksum payload' = SETTINGS.simpleChecksum payload) as Hsum.
  { rewrite !simpleChecksum_sum, (byte_sum_Permutation _ _ Hperm). reflexivity. }
  split; [exact Hsum|]. unfold blob_of.
  pose proof (Permutation_length Hperm) as HL.
  rewrite LoadStructPref_blob by lia.
  rewrite checksum_bytes, bool_decide_eq_true_2 by (symmetry; exact Hsum). reflexivity.
Qed.

Lemma Settings_accepts_reordered_payload_witness :
  SETTINGS.LoadStructPref [86; 48; 49]%Z [0; 0; 0; 0]%Z
    (Some (blob_of [86; 48; 49]%Z [200; 7; 255; 3]%Z
             (SETTINGS.simpleChecksum [7; 200; 255; 3]%Z)))
  = (true, [200; 7; 255; 3]%Z).
Proof.
  apply (Settings_accepts_reordered_payload [86; 48; 49]%Z [7; 200; 255; 3]%Z
           [200; 7; 255; 3]%Z [0; 0; 0; 0]%Z).
  - unfold SETTINGS.kMaxBlobBuffer. simpl. lia.
  - reflexivity.
  - apply perm_swap.
Defined.

(** X22. [LoadStructPref] leaves the output object alone and fails when
    nothing is stored, when the stored blob is shorter than version plus
    checksum or longer than the 512-byte buffer, when its first bytes are
    not the current version literal, and when its payload has not the size
    of the object. *)
Theorem Settings_load_rejects (version outObj blob : list Z) :
  SETTINGS.LoadStructPref version outObj None = (false, outObj) /\
  ((length blob < length version + 2)%nat \/
   (SETTINGS.kMaxBlobBuffer < length blob)%nat \/
   take (length version) blob <> version \/
   length blob <> (length version + length outObj + 2)%nat ->
   SETTINGS.LoadStructPref version outObj (Some blob) = (false, outObj)).
Proof.
  split; [reflexivity|]. intros H. unfold SETTINGS.LoadStructPref. cbv zeta.
  change (default [] (Some blob)) with blob.
  destruct (Nat.eqb_spec (length blob) 0); [reflexivity|].
  destruct (Nat.ltb_spec (length blob) (length version + 2)); [reflexivity|].
  destruct (Nat.ltb_spec SETTINGS.kMaxBlobBuffer (length blob)); [reflexivity|].
  destruct (decide (take (length version) blob = version)) as [He|Hne].
  - rewrite bool_decide_eq_true_2 by exact He. cbn [negb].
    destruct (Nat.eqb_spec (length blob - (length version + 2)) (length outObj));
      [|reflexivity].
    exfalso. destruct H as [H|[H|[H|H]]]; try lia. contradiction.
  - rewrite bool_decide_eq_false_2 by exact Hne. reflexivity.
Qed.

Lemma Settings_load_rejects_witness :
  SETTINGS.LoadStructPref [86; 48; 49]%Z [0; 0]%Z (Some [86; 48; 50; 1; 2; 3; 0]%Z)
  = (false, [0; 0]%Z).
Proof.
  apply (Settings_load_rejects [86; 48; 49]%Z [0; 0]%Z [86; 48; 50; 1; 2; 3; 0]%Z).
  right. right. left. simpl. discriminate.
Defined.

(** ** The autosave debounce of [SETTINGS::Update] *)

Lemma to_uint32_succ_ne z : is_uint32 z -> to_uint32 (z + 1) <> z.
Proof.
  unfold is_uint32, to_uint32. intros Hz Heq.
  destruct (Z.eq_dec z (2 ^ 32 - 1)%Z) as [->|Hne].
  - vm_compute in Heq. discriminate.
  - rewrite Z.mod_small in Heq by lia. lia.
Qed.

Lemma uint32_elapsed_hour now d :
  is_uint32 d -> (d + 3600000 < 2 ^ 32)%Z ->
  to_uint32 (to_uint32 (now + d) - to_uint32 (now - 3600000)) = (d + 3600000)%Z.
Proof.
  unfold is_uint32, to_uint32. intros Hd Hlt.
  rewrite <- Zminus_mod. replace (now + d - (now - 3600000))%Z with (d + 3600000)%Z by lia.
  apply Z.mod_small. lia.
Qed.

Section Debounce.

Variable object_bytes : Config.t -> list Z.
Variable CONFIG_VERSION : list Z.

(** [Update] on a changed configuration whose blob fits the buffer. *)
Lemma Update_dirty now c st pref :
  no_NUL CONFIG_VERSION ->
  (length CONFIG_VERSION + length (object_bytes c) + 2 <= SETTINGS.kMaxBlobBuffer)%nat ->
  Config.changeCounter c <> SETTINGS.g_lastSavedCounter st ->
  SETTINGS.Update object_bytes CONFIG_VERSION now true c (st, pref)
  = if (SETTINGS.g_autoSaveDelayMs st <=? to_uint32 (now - Config.lastModifiedMs c))%Z
    then (true,
          (SETTINGS.mk (SETTINGS.g_autoSaveDelayMs st) (Config.changeCounter c),
           Some (blob_of CONFIG_VERSION (object_bytes c)
                   (SETTINGS.simpleChecksum (object_bytes c)))))
    else (false, (st, pref)).
Proof.
  intros Hv Hfit Hne. unfold SETTINGS.Update, SETTINGS.SaveConfig.
  destruct (Z.eqb_spec (Config.changeCounter c) (SETTINGS.g_lastSavedCounter st));
    [contradiction|]. cbn [negb].
  destruct (SETTINGS.g_autoSaveDelayMs st <=? to_uint32 (now - Config.lastModifiedMs c))%Z;
    [|reflexivity].
  rewrite SaveStructPref_blob by assumption. reflexivity.
Qed.

Lemma Update_clean now ok c st pref :
  Config.changeCounter c = SETTINGS.g_lastSavedCounter st ->
  SETTINGS.Update object_bytes CONFIG_VERSION now ok c (st, pref) = (false, (st, pref)).
Proof.
  intros He. unfold SETTINGS.Update. rewrite He, Z.eqb_refl. reflexivity.
Qed.

Lemma Update_store_fails now c st pref :
  SETTINGS.Update object_bytes CONFIG_VERSION now false c (st, pref) = (false, (st, pref)).
Proof.
  unfold SETTINGS.Update, SETTINGS.SaveConfig, SETTINGS.SaveStructPref. cbv zeta.
  destruct (negb _); [|reflexivity].
  destruct (_ <=? _)%Z; [|reflexivity].
  destruct (_ <? _)%nat; reflexivity.
Qed.

(** X23. After [MarkChangeInConfig] on a saved configuration,
    [SETTINGS::Update] called [d] ms later, also across a wrap-around of
    [millis()], saves nothing while [d] is below the autosave delay and
    saves once [d] has reached it: the store then holds the blob of the
    marked configuration and every later [Update] is idle until the next
    change.  While the store refuses the write nothing is recorded, so the
    save stays pending. *)
Theorem MarkChange_then_Update (c : Config.t) (st : SETTINGS.t) (pref : option (list Z))
    (now d : Z) :
  no_NUL CONFIG_VERSION ->
  (length CONFIG_VERSION + length (object_bytes (MarkChangeInConfig now c)) + 2
   <= SETTINGS.kMaxBlobBuffer)%nat ->
  is_uint32 now -> is_uint32 d -> is_uint32 (Config.changeCounter c) ->
  SETTINGS.g_lastSavedCounter st = Config.changeCounter c ->
  let c' := MarkChangeInConfig now c in
  let r := SETTINGS.Update object_bytes CONFIG_VERSION (to_uint32 (now + d)) true c'
             (st, pref) in
  ((d < SETTINGS.g_autoSaveDelayMs st)%Z -> r = (false, (st, pref))) /\
  ((SETTINGS.g_autoSaveDelayMs st <= d)%Z ->
   fst r = true /\
   snd (snd r)
   = Some (blob_of CONFIG_VERSION (object_bytes c')
             (SETTINGS.simpleChecksum (object_bytes c'))) /\
   forall now' ok,
     SETTINGS.Update object_bytes CONFIG_VERSION now' ok c' (snd r) = (false, snd r)) /\
  (forall now',
     SETTINGS.Update object_bytes CONFIG_VERSION now' false c' (st, pref)
     = (false, (st, pref))).
Proof.
  intros Hv Hfit Hnow Hd Hcc Hsaved. cbv zeta.
  rewrite (Update_dirty _ (MarkChangeInConfig now c) st pref Hv Hfit)
    by (unfold MarkChangeInConfig; cbn; rewrite Hsaved; apply to_uint32_succ_ne; exact Hcc).
  change (Config.lastModifiedMs (MarkChangeInConfig now c)) with now.
  rewrite (uint32_elapsed now d Hnow Hd).
  split; [| split].
  - intros Hlt. destruct (Z.leb_spec (SETTINGS.g_autoSaveDelayMs st) d); [lia | reflexivity].
  - intros Hge. destruct (Z.leb_spec (SETTINGS.g_autoSaveDelayMs st) d); [|lia].
    cbn [fst snd]. split; [reflexivity|]. split; [reflexivity|].
    intros now' ok. apply Update_clean. reflexivity.
  - intros now'. apply Update_store_fails.
Qed.

(** X24. After [ProvokeImmediateSaveOfConfig] on a saved configuration the
    next [SETTINGS::Update] saves at once, whatever the time [d] since the
    call, as long as the autosave delay is at most the hour the time stamp
    was moved back and the 32-bit difference has not wrapped. *)
Theorem ProvokeImmediateSave_then_Update (c : Config.t) (st : SETTINGS.t)
    (pref : option (list Z)) (now d : Z) :
  no_NUL CONFIG_VERSION ->
  (length CONFIG_VERSION + length (object_bytes (ProvokeImmediateSaveOfConfig now c)) + 2
   <= SETTINGS.kMaxBlobBuffer)%nat ->
  is_uint32 d -> (d + 3600000 < 2 ^ 32)%Z -> is_uint32 (Config.changeCounter c) ->
  SETTINGS.g_lastSavedCounter st = Config.changeCounter c ->
  (SETTINGS.g_autoSaveDelayMs st <= 3600000)%Z ->
  let c' := ProvokeImmediateSaveOfConfig now c in
  let r := SETTINGS.Update object_bytes CONFIG_VERSION (to_uint32 (now + d)) true c'
             (st, pref) in
  fst r = true /\
  snd (snd r)
  = Some (blob_of CONFIG_VERSION (object_bytes c')
            (SETTINGS.simpleChecksum (object_bytes c'))) /\
  SETTINGS.g_lastSavedCounter (fst (snd r)) = to_uint32 (Config.changeCounter c + 1).
Proof.
  intros Hv Hfit Hd Hlt Hcc Hsaved Hdelay. cbv zeta.
  rewrite (Update_dirty _ (ProvokeImmediateSaveOfConfig now c) st pref Hv Hfit)
    by (unfold ProvokeImmediateSaveOfConfig; cbn; rewrite Hsaved;
        apply to_uint32_succ_ne; exact Hcc).
  change (Config.lastModifiedMs (ProvokeImmediateSaveOfConfig now c))
    with (to_uint32 (now - 3600000)).
  rewrite (uint32_elapsed_hour now d Hd Hlt).
  unfold is_uint32 in Hd.
  destruct (Z.leb_spec (SETTINGS.g_autoSaveDelayMs st) (d + 3600000)); [|lia].
  repeat split.
Qed.

End Debounce.

Lemma MarkChange_then_Update_witness :
  SETTINGS.Update (fun c => [Config.changeCounter c]) [86; 48; 49]%Z
    (to_uint32 (4294967000 + 14999)) true
    (MarkChangeInConfig 4294967000 (Config.default 3)) (SETTINGS.initial, None)
  = (false, (SETTINGS.initial, None)).
Proof.
  destruct (MarkChange_then_Update (fun c => [Config.changeCounter c]) [86; 48; 49]%Z
              (Config.default 3) SETTINGS.initial None 4294967000 14999) as (H & _).
  - repeat constructor; discriminate.
  - unfold SETTINGS.kMaxBlobBuffer. simpl. lia.
  - unfold is_uint32. lia.
  - unfold is_uint32. lia.
  - unfold is_uint32. simpl. lia.
  - reflexivity.
  - apply H. simpl. lia.
Defined.

Lemma ProvokeImmediateSave_then_Update_witness :
  fst (SETTINGS.Update (fun c => [Config.changeCounter c]) [86; 48; 49]%Z
         (to_uint32 (1000 + 0)) true
         (ProvokeImmediateSaveOfConfig 1000 (Config.default 3)) (SETTINGS.initial, None))
  = true.
Proof.
  destruct (ProvokeImmediateSave_then_Update (fun c => [Config.changeCounter c])
              [86; 48; 49]%Z (Config.default 3) SETTINGS.initial None 1000 0) as (H & _).
  - repeat constructor; discriminate.
  - unfold SETTINGS.kMaxBlobBuffer. simpl. lia.
  - unfold is_uint32. lia.
  - lia.
  - unfold is_uint32. simpl. lia.
  - reflexivity.
  - simpl. lia.
  - exact H.
Defined.

(** ** The line buffer of the console *)

Section Line_buffer.

Variable World : Type.
Variable EvaluateCommand : list Z -> CONSOLE.restart * World -> CONSOLE.restart * World.
Variable PrintResponseLine_overflow : World -> World.

Local Abbreviation Process_char := (CONSOLE.Process_char World EvaluateCommand PrintResponseLine_overflow).
Local Abbreviation Process_loop := (CONSOLE.Process_loop World EvaluateCommand PrintResponseLine_overflow).

Lemma Process_loop_app l1 l2 st :
  Forall (fun c => (0 <= c)%Z) l1 ->
  Process_loop (l1 ++ l2) st = Process_loop l2 (Process_loop l1 st).
Proof.
  intros H. revert st. induction H as [|c l Hc _ IH]; intros st; [reflexivity|].
  cbn [app CONSOLE.Process_loop]. destruct (Z.ltb_spec c 0); [lia|]. apply IH.
Qed.

(** Plain characters are appended while there is room. *)
Lemma Process_loop_plain l cmd rw :
  Forall plain_char l -> (length cmd + length l < CONSOLE.CMD_BUFFER_CAPACITY)%nat ->
  Process_loop l (cmd, rw) = (cmd ++ l, rw).
Proof.
  intros H. revert cmd. induction H as [|c l (Hc & H10 & H13) _ IH]; intros cmd Hlen.
  - rewrite app_nil_r. reflexivity.
  - cbn [length] in Hlen. unfold is_uint8 in Hc. cbn [CONSOLE.Process_loop].
    destruct (Z.ltb_spec c 0); [lia|]. rewrite Z.mod_small by lia.
    unfold CONSOLE.Process_char at 1.
    destruct (Z.eqb_spec c 13); [contradiction|]. destruct (Z.eqb_spec c 10); [contradiction|].
    destruct (Nat.ltb_spec (length cmd + 1) CONSOLE.CMD_BUFFER_CAPACITY); [|lia].
    rewrite IH by (rewrite length_app; simpl; lia).
    rewrite <- app_assoc. reflexivity.
Qed.

Lemma Process_char_room ch st :
  (length (fst (Process_char ch st)) < CONSOLE.CMD_BUFFER_CAPACITY)%nat \/
  Process_char ch st = st.
Proof.
  destruct st as [cmd rw]. unfold CONSOLE.Process_char.
  destruct (ch =? 13)%Z; [right; reflexivity|]. left.
  destruct (ch =? 10)%Z; [unfold CONSOLE.CMD_BUFFER_CAPACITY; simpl; lia|].
  destruct (Nat.ltb_spec (length cmd + 1) CONSOLE.CMD_BUFFER_CAPACITY).
  - cbn [fst]. rewrite length_app. simpl. lia.
  - unfold CONSOLE.CMD_BUFFER_CAPACITY. simpl. lia.
Qed.

(** X25. The line buffer never overruns: [cmdPos] stays below the capacity
    of 96, leaving room for the terminator, whatever is received.  A line
    of up to 95 bytes received into the empty buffer and ended by LF is
    handed to [EvaluateCommand] once, as the C string without the CRs it
    contained, and the buffer is empty again; an empty line is evaluated
    not at all. *)
Theorem Process_line (input line : list Z) (st : list Z * (CONSOLE.restart * World))
    (rw : CONSOLE.restart * World) :
  (length (fst st) < CONSOLE.CMD_BUFFER_CAPACITY)%nat ->
  Forall (fun c => is_uint8 c /\ c <> 10%Z) line ->
  (length (filter (fun c => c <> 13%Z) line) < CONSOLE.CMD_BUFFER_CAPACITY)%nat ->
  (length (fst (Process_loop input st)) < CONSOLE.CMD_BUFFER_CAPACITY)%nat /\
  Process_loop (line ++ [10%Z]) ([], rw)
  = ([], if (0 <? length (filter (fun c => c <> 13%Z) line))%nat
         then EvaluateCommand (CONSOLE.c_str (filter (fun c => c <> 13%Z) line)) rw
         else rw).
Proof.
  intros Hroom Hline Hlen. split.
  - clear Hline Hlen. revert st Hroom. induction input as [|c l IH]; intros st Hroom.
    + exact Hroom.
    + cbn [CONSOLE.Process_loop]. destruct (c <? 0)%Z; [exact Hroom|].
      apply IH. destruct (Process_char_room (c mod 256) st) as [H| ->]; assumption.
  - assert (forall cmd,
               (length cmd + length (filter (fun c => c <> 13%Z) line)
                < CONSOLE.CMD_BUFFER_CAPACITY)%nat ->
               Process_loop line (cmd, rw)
               = (cmd ++ filter (fun c => c <> 13%Z) line, rw)) as Hrun.
    { clear Hlen. induction Hline as [|c l [Hc H10] _ IH]; intros cmd Hlen.
      - rewrite app_nil_r. reflexivity.
      - unfold is_uint8 in Hc. cbn [CONSOLE.Process_loop].
        destruct (Z.ltb_spec c 0); [lia|]. rewrite Z.mod_small by lia.
        rewrite filter_cons in *. unfold CONSOLE.Process_char at 1.
        destruct (Z.eqb_spec c 13) as [->|H13].
        + destruct (decide (13 <> 13)%Z); [congruence|]. apply IH. exact Hlen.
        + destruct (decide (c <> 13)%Z); [|contradiction]. cbn [length] in Hlen.
          destruct (Z.eqb_spec c 10); [contradiction|].
          destruct (Nat.ltb_spec (length cmd + 1) CONSOLE.CMD_BUFFER_CAPACITY); [|lia].
          rewrite IH by (rewrite length_app; simpl; lia).
          rewrite <- app_assoc. reflexivity. }
    rewrite Process_loop_app
      by (eapply Forall_impl; [exact Hline | intros c [Hc _]; unfold is_uint8 in Hc; lia]).
    rewrite Hrun by (simpl; lia). reflexivity.
Qed.

(** X26. A line of more than 95 bytes is not dropped as a whole: the 96th
    byte empties the buffer, is itself lost and raises the overflow
    warning, and the bytes after it start a new line, so that what follows
    the 96th byte is evaluated as a command of its own at the LF. *)
Theorem Process_overlong_line (head tail : list Z) (x : Z)
    (rw : CONSOLE.restart * World) :
  Forall plain_char head -> plain_char x -> Forall plain_char tail ->
  length head = 95%nat -> (length tail < CONSOLE.CMD_BUFFER_CAPACITY)%nat ->
  Process_loop (head ++ x :: tail ++ [10%Z]) ([], rw)
  = ([], if (0 <? length tail)%nat
         then EvaluateCommand (CONSOLE.c_str tail)
                (fst rw, PrintResponseLine_overflow (snd rw))
         else (fst rw, PrintResponseLine_overflow (snd rw))).
Proof.
  intros Hh (Hx & Hx10 & Hx13) Ht Hlh Hlt.
  assert (forall l, Forall plain_char l -> Forall (fun c => (0 <= c)%Z) l) as Hpos.
  { intros l Hl. eapply Forall_impl; [exact Hl|].
    intros c [Hc _]. unfold is_uint8 in Hc. lia. }
  rewrite Process_loop_app by (apply Hpos; exact Hh).
  rewrite Process_loop_plain by (assumption || (unfold CONSOLE.CMD_BUFFER_CAPACITY; simpl; lia)).
  cbn [app CONSOLE.Process_loop]. unfold is_uint8 in Hx.
  destruct (Z.ltb_spec x 0); [lia|]. rewrite Z.mod_small by lia.
  unfold CONSOLE.Process_char.
  destruct (Z.eqb_spec x 13); [contradiction|]. destruct (Z.eqb_spec x 10); [contradiction|].
  destruct (Nat.ltb_spec (length head + 1) CONSOLE.CMD_BUFFER_CAPACITY);
    [unfold CONSOLE.CMD_BUFFER_CAPACITY in *; lia|].
  rewrite Process_loop_app by (apply Hpos; exact Ht).
  rewrite Process_loop_plain by (assumption || (simpl; lia)).
  reflexivity.
Qed.

End Line_buffer.

Lemma Process_line_witness :
  CONSOLE.Process_loop (list (list Z)) (fun l rw => (fst rw, snd rw ++ [l])) (fun w => w)
    ([72; 13; 73] ++ [10])%Z ([], (CONSOLE.mk_restart false 0, []))
  = ([], (CONSOLE.mk_restart false 0, [[72; 73]%Z])).
Proof.
  destruct (Process_line (list (list Z)) (fun l rw => (fst rw, snd rw ++ [l])) (fun w => w)
              [] [72; 13; 73]%Z ([], (CONSOLE.mk_restart false 0, []))
              (CONSOLE.mk_restart false 0, [])) as [_ H].
  - unfold CONSOLE.CMD_BUFFER_CAPACITY. simpl. lia.
  - unfold is_uint8. repeat constructor; lia.
  - vm_compute. lia.
  - exact H.
Defined.

Lemma Process_overlong_line_witness :
  CONSOLE.Process_loop (list (list Z)) (fun l rw => (fst rw, snd rw ++ [l])) (fun w => w)
    (replicate 95 65%Z ++ 66%Z :: [83; 65; 86; 69]%Z ++ [10%Z])
    ([], (CONSOLE.mk_restart false 0, []))
  = ([], (CONSOLE.mk_restart false 0, [[83; 65; 86; 69]%Z])).
Proof.
  apply (Process_overlong_line (list (list Z)) (fun l rw => (fst rw, snd rw ++ [l]))
           (fun w => w) (replicate 95 65%Z) [83; 65; 86; 69]%Z 66
           (CONSOLE.mk_restart false 0, [])).
  - apply Forall_replicate. unfold plain_char, is_uint8. lia.
  - unfold plain_char, is_uint8. lia.
  - unfold plain_char, is_uint8. repeat constructor; lia.
  - reflexivity.
  - unfold CONSOLE.CMD_BUFFER_CAPACITY. simpl. lia.
Defined.

(** ** The deferred restart *)

Lemma int32_difference a b x :
  (- 2 ^ 31 <= x < 2 ^ 31)%Z -> (a - b = x)%Z ->
  to_int (to_uint32 (to_uint32 a - to_uint32 b)) = x.
Proof.
  intros Hx Hab. unfold to_int, to_uint32.
  rewrite <- Zminus_mod, Hab, Zplus_mod_idemp_l.
  rewrite Z.mod_small by lia. lia.
Qed.

(** X27. A restart scheduled with a delay below 2^31 ms is carried out by
    the first [ProcessPendingRestart] that runs [delay] ms or more after the
    request and by none before, also across a wrap-around of [millis()].
    Carrying it out clears the request, so it happens once; without a
    request nothing happens. *)
Theorem restart_deadline (r : CONSOLE.restart) (t0 delay d now : Z) :
  (0 <= delay < 2 ^ 31)%Z -> (0 <= d < 2 ^ 31)%Z ->
  let r1 := CONSOLE.ScheduleSystemRestart delay t0 r in
  ((d < delay)%Z -> CONSOLE.ProcessPendingRestart (to_uint32 (t0 + d)) r1 = (r1, false)) /\
  ((delay <= d)%Z ->
   snd (CONSOLE.ProcessPendingRestart (to_uint32 (t0 + d)) r1) = true /\
   CONSOLE.ProcessPendingRestart now
     (fst (CONSOLE.ProcessPendingRestart (to_uint32 (t0 + d)) r1))
   = (fst (CONSOLE.ProcessPendingRestart (to_uint32 (t0 + d)) r1), false)) /\
  (CONSOLE.systemRestartPending r = false ->
   CONSOLE.ProcessPendingRestart now r = (r, false)).
Proof.
  intros Hdelay Hd. cbv zeta.
  unfold CONSOLE.ProcessPendingRestart, CONSOLE.ScheduleSystemRestart.
  cbn [CONSOLE.systemRestartPending CONSOLE.systemRestartDeadlineMs negb].
  rewrite (int32_difference (t0 + d) (t0 + delay) (d - delay)) by lia.
  split; [| split].
  - intros Hlt. destruct (Z.ltb_spec (d - delay) 0); [reflexivity | lia].
  - intros Hge. destruct (Z.ltb_spec (d - delay) 0); [lia|].
    split; reflexivity.
  - intros ->. reflexivity.
Qed.

Lemma restart_deadline_witness :
  CONSOLE.ProcessPendingRestart (to_uint32 (4294967000 + 9999))
    (CONSOLE.ScheduleSystemRestart 10000 4294967000 (CONSOLE.mk_restart false 0))
  = (CONSOLE.ScheduleSystemRestart 10000 4294967000 (CONSOLE.mk_restart false 0), false).
Proof.
  destruct (restart_deadline (CONSOLE.mk_restart false 0) 4294967000 10000 9999 0)
    as (H & _); [lia | lia |].
  apply H. lia.
Defined.

(** ** The device bridge *)

(** Division by a literal, as a multiplication. *)
Lemma Qdiv_pos_const x (k : positive) : x / (Z.pos k # 1) == x * (1 # k).
Proof. unfold Qdiv, Qinv. cbn. reflexivity. Qed.

Ltac div_facts :=
  repeat match goal with
         | |- context [?x / (Z.pos ?k # 1)] =>
             let d := fresh "d" in
             let H := fresh "Hd" in
             pose proof (Qdiv_pos_const x k) as H;
             set (d := x / (Z.pos k # 1)) in *; clearbody d
         | H0 : context [?x / (Z.pos ?k # 1)] |- _ =>
             let d := fresh "d" in
             let H := fresh "Hd" in
             pose proof (Qdiv_pos_const x k) as H;
             set (d := x / (Z.pos k # 1)) in *; clearbody d
         end.

(** Truncation toward zero leaves a fraction of the sign of the argument. *)
Lemma float_to_Z_frac q :
  (0 <= q -> 0 <= q - inject_Z (float_to_Z q) /\ q - inject_Z (float_to_Z q) < 1) /\
  (q <= 0 -> -1 < q - inject_Z (float_to_Z q) /\ q - inject_Z (float_to_Z q) <= 0).
Proof.
  destruct q as [a b]. unfold float_to_Z. cbn [Qnum Qden].
  pose proof (Z.quot_rem' a (Z.pos b)) as Hqr.
  set (k := Z.quot a (Z.pos b)) in *. set (r := Z.rem a (Z.pos b)) in *.
  assert (a # b == inject_Z k + (r # b)) as Hsplit.
  { unfold Qeq, Qplus, inject_Z. cbn. nia. }
  split; intros Hq.
  - assert (0 <= a)%Z as Ha by (unfold Qle in Hq; cbn in Hq; lia).
    pose proof (Z.rem_bound_pos a (Z.pos b) Ha ltac:(lia)) as Hr. fold r in Hr.
    assert (0 <= r # b /\ r # b < 1) as [H0 H1] by (unfold Qle, Qlt; cbn; lia).
    lra.
  - assert (a <= 0)%Z as Ha by (unfold Qle in Hq; cbn in Hq; lia).
    pose proof (Z.rem_bound_pos_neg a (Z.pos b) ltac:(lia) Ha) as Hr. fold r in Hr.
    assert (-1 < r # b /\ r # b <= 0) as [H0 H1] by (unfold Qle, Qlt; cbn; lia).
    lra.
Qed.



Lemma fmodf_range x y :
  0 < y ->
  (0 <= x -> 0 <= fmodf x y /\ fmodf x y < y) /\
  (x <= 0 -> - y < fmodf x y /\ fmodf x y <= 0).
Proof.
  intros Hy. unfold fmodf.
  assert (x - inject_Z (float_to_Z (x / y)) * y == (x / y - inject_Z (float_to_Z (x / y))) * y)
    as -> by (field; lra).
  destruct (float_to_Z_frac (x / y)) as [Hpos Hneg].
  set (f := x / y - inject_Z (float_to_Z (x / y))) in *.
  split; intros Hx.
  - destruct Hpos as [H0 H1]; [apply Qle_shift_div_l; lra|]. nra.
  - destruct Hneg as [H0 H1]; [apply Qle_shift_div_r; lra|]. nra.
Qed.


Lemma NormalizeHue_range hue :
  0 <= MAIN.NormalizeHue hue /\ MAIN.NormalizeHue hue < 360.
Proof.
  unfold MAIN.NormalizeHue. cbv zeta.
  destruct (fmodf_range hue 360) as [Hpos Hneg]; [lra|].
  destruct (Qltb (fmodf hue 360) 0) eqn:E.
  - apply Qltb_lt in E. destruct (Qlt_le_dec hue 0) as [Hn|Hp].
    + destruct Hneg; lra.
    + destruct Hpos; lra.
  - apply Qltb_ge in E. destruct (Qlt_le_dec hue 0) as [Hn|Hp].
    + destruct Hneg; lra.
    + destruct Hpos; lra.
Qed.

Lemma Qfloor_unique q k : inject_Z k <= q -> q < inject_Z k + 1 -> Qfloor q = k.
Proof.
  intros Hlo Hhi.
  pose proof (Qfloor_le q) as H0. pose proof (Qlt_floor q) as H1.
  rewrite inject_Z_plus in H1. change (inject_Z 1) with 1 in H1.
  assert (inject_Z (Qfloor q) < inject_Z (k + 1)) as Ha
    by (rewrite inject_Z_plus; change (inject_Z 1) with 1; lra).
  assert (inject_Z k < inject_Z (Qfloor q + 1)) as Hb
    by (rewrite inject_Z_plus; change (inject_Z 1) with 1; lra).
  rewrite <- Zlt_Qlt in Ha, Hb. lia.
Qed.

Lemma constrain_int_range amt low high :
  (low <= high)%Z -> (low <= constrain_int amt low high <= high)%Z.
Proof.
  intros H. unfold constrain_int.
  destruct (Z.ltb_spec amt low); [lia|]. destruct (Z.ltb_spec high amt); lia.
Qed.

Lemma lroundf_level q : 0 <= q <= 100 -> (0 <= lroundf q <= 100)%Z.
Proof.
  intros [H0 H1]. unfold lroundf.
  assert (Qltb q 0 = false) as -> by (apply Qltb_ge; exact H0).
  pose proof (Qfloor_le (q + (1 # 2))) as Hf0. pose proof (Qlt_floor (q + (1 # 2))) as Hf1.
  rewrite inject_Z_plus in Hf1. change (inject_Z 1) with 1 in Hf1.
  assert (inject_Z (-1) < inject_Z (Qfloor (q + (1 # 2)))) as Ha
    by (change (inject_Z (-1)) with (-1); lra).
  assert (inject_Z (Qfloor (q + (1 # 2))) < inject_Z 101) as Hb
    by (change (inject_Z 101) with 101; lra).
  rewrite <- Zlt_Qlt in Ha, Hb. lia.
Qed.

Lemma MirrorLevelToBrightness_range level :
  0 <= MAIN.MirrorLevelToBrightness level <= 255.
Proof.
  unfold MAIN.MirrorLevelToBrightness, Z_to_float. cbv zeta.
  pose proof (constrain_int_range level 0 100 ltac:(lia)) as Hc.
  set (c := constrain_int level 0 100) in *.
  assert (0 <= inject_Z c <= 100) as [H0 H1].
  { change 0 with (inject_Z 0). change 100 with (inject_Z 100). rewrite <- !Zle_Qle. exact Hc. }
  div_facts. lra.
Qed.

(** X28. Brightness and mirror level convert back and forth without loss on
    the level side: a level, clamped to [0, 100], becomes a brightness in
    [0, 255] from which [BrightnessToMirrorLevel] recovers the clamped
    level; and whatever the brightness, the level computed from it lies in
    [0, 100]. *)
Theorem Mirror_level_round_trip (level : Z) (brightness : Q) :
  MAIN.BrightnessToMirrorLevel (MAIN.MirrorLevelToBrightness level)
  = constrain_int level 0 100 /\
  0 <= MAIN.MirrorLevelToBrightness level <= 255 /\
  (0 <= MAIN.BrightnessToMirrorLevel brightness <= 100)%Z.
Proof.
  split; [| split; [apply MirrorLevelToBrightness_range|]].
  - pose proof (MirrorLevelToBrightness_range level) as Hr.
    unfold MAIN.BrightnessToMirrorLevel. cbv zeta.
    rewrite constrain_id by apply Hr.
    unfold MAIN.MirrorLevelToBrightness, Z_to_float in *. cbv zeta in *.
    pose proof (constrain_int_range level 0 100 ltac:(lia)) as Hc.
    set (c := constrain_int level 0 100) in *.
    assert (0 <= inject_Z c <= 100) as [H0 H1].
    { change 0 with (inject_Z 0). change 100 with (inject_Z 100). rewrite <- !Zle_Qle. exact Hc. }
    clear Hr.
    unfold lroundf.
    assert (Qltb (inject_Z c / 100 * 255 / 255 * 100) 0 = false) as ->
      by (apply Qltb_ge; div_facts; lra).
    rewrite (Qfloor_unique _ c) by (div_facts; lra).
    unfold to_int. change (2 ^ 31)%Z with 2147483648%Z. change (2 ^ 32)%Z with 4294967296%Z.
    rewrite Z.mod_small by lia. lia.
  - unfold MAIN.BrightnessToMirrorLevel. cbv zeta.
    pose proof (constrain_bounds brightness 0 255 ltac:(lra)) as Hb.
    assert (0 <= constrain brightness 0 255 / 255 * 100 <= 100) as Hq by (div_facts; lra).
    pose proof (lroundf_level _ Hq) as Hl.
    unfold to_int. change (2 ^ 31)%Z with 2147483648%Z. change (2 ^ 32)%Z with 4294967296%Z.
    rewrite Z.mod_small by lia. lia.
Qed.

Lemma scaled_constrain_range a : 0 <= constrain a 0 1 * 255 <= 255.
Proof. pose proof (constrain_bounds a 0 1 ltac:(lra)). lra. Qed.

Lemma MirrorColorToPixel_range rgbw hueDeg satPercent :
  color_in_range (MAIN.MirrorColorToPixel rgbw hueDeg satPercent).
Proof.
  unfold MAIN.MirrorColorToPixel. cbv zeta.
  destruct (Qltb (MAIN.NormalizeHue hueDeg) 60);
    [|destruct (Qltb (MAIN.NormalizeHue hueDeg) 120);
      [|destruct (Qltb (MAIN.NormalizeHue hueDeg) 180);
        [|destruct (Qltb (MAIN.NormalizeHue hueDeg) 240);
          [|destruct (Qltb (MAIN.NormalizeHue hueDeg) 300)]]]];
    destruct rgbw; unfold color_in_range;
    cbn [Pixel_float.R Pixel_float.G Pixel_float.B Pixel_float.W];
    repeat split; try apply scaled_constrain_range; lra.
Qed.

(** X29. [ApplyMirrorToCoreConfig] sanitizes the mirror, level in
    [0, 100], saturations in [0, 100], hues in [0, 360], and derives from it
    staged targets that are in their nominal ranges whatever the mirror
    held: both staged colours in [0, 255] per channel, the staged brightness
    in [0, 255], the staged on/off factor 0 or 1.  It counts one change. *)
Theorem ApplyMirrorToCoreConfig_staging (rgbw : bool) (now : Z) (m : MAIN.Mirror)
    (cfg : Config.t) :
  0 < Config.colorIncrement cfg -> 0 < Config.brightnessIncrement cfg ->
  0 < Config.onoffIncrement cfg ->
  staging_in_range (snd (MAIN.ApplyMirrorToCoreConfig rgbw now (m, cfg))) /\
  mirror_sane (fst (MAIN.ApplyMirrorToCoreConfig rgbw now (m, cfg))) /\
  Config.changeCounter (snd (MAIN.ApplyMirrorToCoreConfig rgbw now (m, cfg)))
  = to_uint32 (Config.changeCounter cfg + 1) /\
  Config.brightnessStaging (snd (MAIN.ApplyMirrorToCoreConfig rgbw now (m, cfg)))
  = MAIN.MirrorLevelToBrightness (MAIN.level m).
Proof.
  intros Hci Hbi Hoi. unfold MAIN.ApplyMirrorToCoreConfig. cbv zeta. cbn [fst snd].
  split; [| split; [| split]].
  - unfold staging_in_range. cbn.
    pose proof (MirrorLevelToBrightness_range (constrain_int (MAIN.level m) 0 100)) as Hb.
    repeat split; try assumption; try apply MirrorColorToPixel_range; try apply Hb.
    all: destruct (MAIN.onoff m); lra.
  - unfold mirror_sane, MAIN.SanitizeMirror.
    cbn [MAIN.level MAIN.hue1 MAIN.hue2 MAIN.sat1 MAIN.sat2].
    pose proof (NormalizeHue_range (MAIN.hue1 m)). pose proof (NormalizeHue_range (MAIN.hue2 m)).
    pose proof (constrain_bounds (MAIN.sat1 m) 0 100 ltac:(lra)).
    pose proof (constrain_bounds (MAIN.sat2 m) 0 100 ltac:(lra)).
    pose proof (constrain_int_range (MAIN.level m) 0 100 ltac:(lia)).
    repeat split; try lra; lia.
  - reflexivity.
  - cbn. unfold MAIN.MirrorLevelToBrightness. cbv zeta.
    assert (constrain_int (constrain_int (MAIN.level m) 0 100) 0 100
            = constrain_int (MAIN.level m) 0 100) as ->; [|reflexivity].
    pose proof (constrain_int_range (MAIN.level m) 0 100 ltac:(lia)) as Hr.
    unfold constrain_int at 1.
    destruct (Z.ltb_spec (constrain_int (MAIN.level m) 0 100) 0); [lia|].
    destruct (Z.ltb_spec 100 (constrain_int (MAIN.level m) 0 100)); [lia | reflexivity].
Qed.

Lemma ApplyMirrorToCoreConfig_staging_witness :
  staging_in_range
    (snd (MAIN.ApplyMirrorToCoreConfig true 5
            (MAIN.mk_Mirror true 150 (-30) 250 400 50, Config.default 3))).
Proof.
  destruct (ApplyMirrorToCoreConfig_staging true 5 (MAIN.mk_Mirror true 150 (-30) 250 400 50)
              (Config.default 3)) as (H & _); [cbn; lra | cbn; lra | cbn; lra |].
  exact H.
Defined.

(** ** Hue and saturation: [MirrorColorToPixel] and [PixelToHsv] *)



















